(** * Benthos: processors, the nanomsg output and the text interpolator

    A shallow embedding of the Go code of

      - package processor: Combine (the batching processor) and
        BoundsCheck (the filter), with their constructors;
      - package output: the Nanomsg output, its constructor, Consume and
        CloseAsync;

    together with models, taken from the specification, of what this code
    imports and of what only tests are at hand for: messages and
    responses, the function variables of package text, and the wrapping
    of an input with pipelines.

    Conventions.  A Go [int] is a [Z]; [len] of a slice is [Z.of_nat] of
    the list length.  A [[]byte] is a [list byte].  A Go [string] is a
    [string].  A Go [error] value is an [option error] ([None] is [nil]).
    A method with a pointer receiver takes the receiver and returns the
    updated receiver next to its results.  Metric counters are integer
    fields of the component that owns them; log lines are not modelled. *)

From Stdlib Require Import ZArith Lia List Ascii String Strings.Byte.
From stdpp Require Import base gmap strings list sorting.

Local Open Scope Z_scope.

Abbreviation bytes := (list byte).

#[global] Instance byte_eq_dec : EqDecision byte := Byte.byte_eq_dec.

(** ** lib/types *)

Module types.

Inductive error : Type :=
| ErrAlreadyStarted
| ErrTimeout
| ErrInvalidScaleProtoType
| ErrOther (text : string).

(** Modelled from the spec: the Response value of lib/types and
    lib/response (neither file is among the sources): "one of
    {Ack, Error(e), SkipAck}; a value, not an exception". *)
Inductive Response : Type :=
| Ack
| Error (e : error)
| SkipAck.

(** A transaction channel is known by its identity only; the nil channel
    is [None]. *)
Definition TransactionChan : Type := option nat.

End types.

Module response.
Import types.

Definition NewAck : Response := Ack.
Definition NewUnack : Response := SkipAck.
Definition NewError (err : option error) : Response :=
  match err with
  | None => Ack
  | Some e => Error e
  end.

End response.

(** ** lib/message *)

Module message.
Import types.

(** Modelled from the spec: the Message type of lib/message (not among the
    sources): "an ordered sequence of parts (each part a byte buffer) and
    an unordered mapping from string key to string value (metadata)". *)
Record Message : Type := MkMessage {
  parts : list bytes;
  metadata : gmap string string
}.

Definition New (ps : list bytes) : Message :=
  {| parts := ps; metadata := ∅ |}.

Definition Len (m : Message) : Z := Z.of_nat (length (parts m)).

Definition GetAll (m : Message) : list bytes := parts m.

Definition SetMetadata (m : Message) (k v : string) : Message :=
  {| parts := parts m; metadata := <[k := v]> (metadata m) |}.

(** The callback of IterMetadata is a closure over mutable state and
    returns an error, at which the iteration stops. *)
Fixpoint iter_entries {S : Type} (f : string → string → S → S * option error)
    (entries : list (string * string)) (s : S) : S * option error :=
  match entries with
  | [] => (s, None)
  | (k, v) :: rest =>
      match f k v s with
      | (s', None) => iter_entries f rest s'
      | (s', Some e) => (s', Some e)
      end
  end.

Definition IterMetadata {S : Type} (m : Message)
    (f : string → string → S → S * option error) (s : S) : S * option error :=
  iter_entries f (map_to_list (metadata m)) s.

End message.

(** ** lib/processor *)

Module processor.
Import types message.

Record CombineConfig : Type := { Parts : Z }.

Definition NewCombineConfig : CombineConfig := {| Parts := 2 |}.

Record BoundsCheckConfig : Type := {
  MaxParts : Z;
  MinParts : Z;
  MaxPartSize : Z;
  MinPartSize : Z
}.

Definition NewBoundsCheckConfig : BoundsCheckConfig :=
  {| MaxParts := 100;
     MinParts := 1;
     MaxPartSize := 1 * 1024 * 1024 * 1024;
     MinPartSize := 1 |}.

(** Modelled from the spec: the processor Config record (its declaration
    is not among the sources): "a discriminated record with a type field
    naming which variant is active and a mapping of per-type nested
    configurations". *)
Record Config : Type := {
  Type_ : string;
  Combine_ : CombineConfig;
  BoundsCheck_ : BoundsCheckConfig
}.

(** *** Combine *)

Record Combine : Type := MkCombine {
  n : Z;
  c_parts : list bytes;
  c_mCount : Z;
  c_mWarnParts : Z;
  c_mSent : Z;
  c_mSentParts : Z;
  c_mDropped : Z
}.

Definition NewCombine (conf : Config) : option Combine * option error :=
  (Some {| n := Parts (Combine_ conf);
           c_parts := [];
           c_mCount := 0;
           c_mWarnParts := 0;
           c_mSent := 0;
           c_mSentParts := 0;
           c_mDropped := 0 |},
   None).

(** [for _, part := range msg.GetAll() { c.parts = append(c.parts, part) }] *)
Definition append_parts (buf : list bytes) (ps : list bytes) : list bytes :=
  fold_left (λ acc part, acc ++ [part]) ps buf.

Definition copy_metadata (msg newMsg : Message) : Message :=
  fst (IterMetadata msg (λ k v nm, (SetMetadata nm k v, None)) newMsg).

Definition Combine_ProcessMessage (c : Combine) (msg : Message)
    : Combine * (list Message * option Response) :=
  let mCount := c_mCount c + 1 in
  if Len msg >? n c then
    ({| n := n c;
        c_parts := c_parts c;
        c_mCount := mCount;
        c_mWarnParts := c_mWarnParts c + 1;
        c_mSent := c_mSent c + 1;
        c_mSentParts := c_mSentParts c + Len msg;
        c_mDropped := c_mDropped c |},
     ([msg], None))
  else
    let buf := append_parts (c_parts c) (GetAll msg) in
    if Z.of_nat (length buf) >=? n c then
      let newMsg := copy_metadata msg (New buf) in
      ({| n := n c;
          c_parts := [];
          c_mCount := mCount;
          c_mWarnParts := c_mWarnParts c;
          c_mSent := c_mSent c + 1;
          c_mSentParts := c_mSentParts c + Len newMsg;
          c_mDropped := c_mDropped c |},
       ([newMsg], None))
    else
      ({| n := n c;
          c_parts := buf;
          c_mCount := mCount;
          c_mWarnParts := c_mWarnParts c;
          c_mSent := c_mSent c;
          c_mSentParts := c_mSentParts c;
          c_mDropped := c_mDropped c + 1 |},
       ([], Some response.NewUnack)).

(** The pipeline that owns a processor hands it one message after the
    other; the messages it emits are collected in order. *)
Fixpoint Combine_run (c : Combine) (msgs : list Message)
    : Combine * list Message :=
  match msgs with
  | [] => (c, [])
  | msg :: rest =>
      let '(c1, (outs, _)) := Combine_ProcessMessage c msg in
      let '(c2, outs') := Combine_run c1 rest in
      (c2, outs ++ outs')
  end.

(** The batch that a group of messages makes: their parts in order, with
    the metadata of the last of them. *)
Definition batch_of (group : list Message) : Message :=
  {| parts := concat (GetAll <$> group);
     metadata := from_option metadata ∅ (last group) |}.

(** *** BoundsCheck *)

Record BoundsCheck : Type := MkBoundsCheck {
  conf : Config;
  b_mCount : Z;
  b_mDropped : Z;
  b_mDroppedEmpty : Z;
  b_mDroppedNumParts : Z;
  b_mDroppedPartSize : Z;
  b_mSent : Z;
  b_mSentParts : Z
}.

Definition NewBoundsCheck (cf : Config) : option BoundsCheck * option error :=
  (Some {| conf := cf;
           b_mCount := 0;
           b_mDropped := 0;
           b_mDroppedEmpty := 0;
           b_mDroppedNumParts := 0;
           b_mDroppedPartSize := 0;
           b_mSent := 0;
           b_mSentParts := 0 |},
   None).

(** The loop over the parts: [true] as soon as one part's size is above
    the maximum or below the minimum. *)
Fixpoint part_size_rejected (bc : BoundsCheckConfig) (ps : list bytes) : bool :=
  match ps with
  | [] => false
  | part :: rest =>
      let size := Z.of_nat (length part) in
      if (size >? MaxPartSize bc) || (size <? MinPartSize bc) then true
      else part_size_rejected bc rest
  end.

Definition BoundsCheck_ProcessMessage (m : BoundsCheck) (msg : Message)
    : BoundsCheck * (list Message * option Response) :=
  let mCount := b_mCount m + 1 in
  let bc := BoundsCheck_ (conf m) in
  let lParts := Len msg in
  if lParts <? MinParts bc then
    ({| conf := conf m;
        b_mCount := mCount;
        b_mDropped := b_mDropped m + 1;
        b_mDroppedEmpty := b_mDroppedEmpty m + 1;
        b_mDroppedNumParts := b_mDroppedNumParts m;
        b_mDroppedPartSize := b_mDroppedPartSize m;
        b_mSent := b_mSent m;
        b_mSentParts := b_mSentParts m |},
     ([], Some response.NewAck))
  else if lParts >? MaxParts bc then
    ({| conf := conf m;
        b_mCount := mCount;
        b_mDropped := b_mDropped m + 1;
        b_mDroppedEmpty := b_mDroppedEmpty m;
        b_mDroppedNumParts := b_mDroppedNumParts m + 1;
        b_mDroppedPartSize := b_mDroppedPartSize m;
        b_mSent := b_mSent m;
        b_mSentParts := b_mSentParts m |},
     ([], Some response.NewAck))
  else if part_size_rejected bc (GetAll msg) then
    ({| conf := conf m;
        b_mCount := mCount;
        b_mDropped := b_mDropped m + 1;
        b_mDroppedEmpty := b_mDroppedEmpty m;
        b_mDroppedNumParts := b_mDroppedNumParts m;
        b_mDroppedPartSize := b_mDroppedPartSize m + 1;
        b_mSent := b_mSent m;
        b_mSentParts := b_mSentParts m |},
     ([], Some response.NewAck))
  else
    ({| conf := conf m;
        b_mCount := mCount;
        b_mDropped := b_mDropped m;
        b_mDroppedEmpty := b_mDroppedEmpty m;
        b_mDroppedNumParts := b_mDroppedNumParts m;
        b_mDroppedPartSize := b_mDroppedPartSize m;
        b_mSent := b_mSent m + 1;
        b_mSentParts := b_mSentParts m + Len msg |},
     ([msg], None)).

(** The four bounds of a configuration, as a proposition on a message. *)
Definition within_bounds (bc : BoundsCheckConfig) (msg : Message) : Prop :=
  MinParts bc ≤ Len msg ≤ MaxParts bc
  ∧ Forall (λ part : bytes,
              MinPartSize bc ≤ Z.of_nat (length part) ≤ MaxPartSize bc)
           (GetAll msg).

End processor.

(** ** lib/output: the nanomsg output *)

Module output.
Import types.

Record NanomsgConfig : Type := {
  URLs : list string;
  Bind : bool;
  SocketType : string;
  PollTimeoutMS : Z
}.

Definition NewNanomsgConfig : NanomsgConfig :=
  {| URLs := ["tcp://localhost:5556"%string];
     Bind := false;
     SocketType := "PUSH";
     PollTimeoutMS := 5000 |}.

(** Modelled from the spec: the output Config record (its declaration is
    not among the sources), a discriminated record of which only the
    nested nanomsg configuration is read here. *)
Record Config : Type := { Type_ : string; Nanomsg_ : NanomsgConfig }.

(** The scalability-protocol library is an external collaborator: what
    its calls answer is given by a [Mangos] value. *)
Inductive Socket : Type := PushSocket | PubSocket.

Record Mangos : Type := {
  push_NewSocket : option error;
  pub_NewSocket : option error;
  SetOption : Socket → Z → option error;
  Listen : Socket → string → option error;
  Dial : Socket → string → option error
}.

Record Nanomsg : Type := MkNanomsg {
  running : Z;
  urls : list string;
  conf : Config;
  socket : Socket;
  transactions : TransactionChan;
  (** whether closeChan has been closed *)
  closeChan_closed : bool;
  (** how many times [go s.loop()] has been executed *)
  loops : nat
}.

(** [strings.Split(u, ",")] *)
Fixpoint Split_comma (u : string) : list string :=
  match u with
  | EmptyString => [EmptyString]
  | String ch rest =>
      if Ascii.eqb ch ","%char then EmptyString :: Split_comma rest
      else match Split_comma rest with
           | [] => [String ch EmptyString]
           | hd :: tl => String ch hd :: tl
           end
  end.

Definition collect_urls (us : list string) : list string :=
  fold_left
    (λ acc u,
       fold_left
         (λ acc splitU,
            if 0 <? Z.of_nat (String.length splitU) then acc ++ [splitU] else acc)
         (Split_comma u) acc)
    us [].

Definition getSocketFromType (lib : Mangos) (t : string)
    : option Socket * option error :=
  if String.eqb t "PUSH" then
    match push_NewSocket lib with
    | None => (Some PushSocket, None)
    | Some e => (None, Some e)
    end
  else if String.eqb t "PUB" then
    match pub_NewSocket lib with
    | None => (Some PubSocket, None)
    | Some e => (None, Some e)
    end
  else (None, Some ErrInvalidScaleProtoType).

(** [for _, addr := range s.urls { if err = f(addr); err != nil { break } }] *)
Fixpoint first_error (f : string → option error) (addrs : list string)
    : option error :=
  match addrs with
  | [] => None
  | addr :: rest =>
      match f addr with
      | Some e => Some e
      | None => first_error f rest
      end
  end.

Definition NewNanomsg (lib : Mangos) (cf : Config)
    : option Nanomsg * option error :=
  let us := collect_urls (URLs (Nanomsg_ cf)) in
  match getSocketFromType lib (SocketType (Nanomsg_ cf)) with
  | (Some sock, None) =>
      match SetOption lib sock (PollTimeoutMS (Nanomsg_ cf)) with
      | Some e => (None, Some e)
      | None =>
          let err :=
            if Bind (Nanomsg_ cf) then first_error (Listen lib sock) us
            else first_error (Dial lib sock) us in
          match err with
          | Some e => (None, Some e)
          | None =>
              (Some {| running := 1;
                       urls := us;
                       conf := cf;
                       socket := sock;
                       transactions := None;
                       closeChan_closed := false;
                       loops := 0 |},
               None)
          end
      end
  | (_, err) => (None, err)
  end.

Definition Consume (s : Nanomsg) (ts : TransactionChan)
    : Nanomsg * option error :=
  match transactions s with
  | Some _ => (s, Some ErrAlreadyStarted)
  | None =>
      ({| running := running s;
          urls := urls s;
          conf := conf s;
          socket := socket s;
          transactions := ts;
          closeChan_closed := closeChan_closed s;
          loops := S (loops s) |},
       None)
  end.

Definition CloseAsync (s : Nanomsg) : Nanomsg :=
  if running s =? 1 then
    {| running := 0;
       urls := urls s;
       conf := conf s;
       socket := socket s;
       transactions := transactions s;
       closeChan_closed := true;
       loops := loops s |}
  else s.

(** The calls a client makes on the output, and a client's run of them;
    the errors returned are collected in order. *)
Inductive Call : Type :=
| CallConsume (ts : TransactionChan)
| CallCloseAsync.

Definition call (s : Nanomsg) (c : Call) : Nanomsg * option error :=
  match c with
  | CallConsume ts => Consume s ts
  | CallCloseAsync => (CloseAsync s, None)
  end.

Fixpoint calls (s : Nanomsg) (cs : list Call) : Nanomsg * list (option error) :=
  match cs with
  | [] => (s, [])
  | c :: rest =>
      let '(s1, e) := call s c in
      let '(s2, es) := calls s1 rest in
      (s2, e :: es)
  end.

End output.

(** ** lib/util/text: function variables *)

Module text.
Import types message.

(** A byte buffer written as a string literal; [Q] reads an apostrophe in
    the literal as a double quote (0x22). *)
Definition B (s : string) : bytes := list_byte_of_string s.

Definition Q (s : string) : bytes :=
  (λ b, if decide (b = "'"%byte) then x22 else b) <$> list_byte_of_string s.

(** The character classes of the grammar: NAME is [[a-z_]+], ARG is
    [[^}]+]. *)
Definition is_name_byte (b : byte) : bool :=
  let k := Byte.to_N b in
  ((97 <=? k) && (k <=? 122) || (k =? 95))%N.

Definition is_arg_byte (b : byte) : bool := bool_decide (b ≠ "}"%byte).

(** The longest prefix of [s] made of bytes of a class, and what follows. *)
Fixpoint span (p : byte → bool) (s : bytes) : bytes * bytes :=
  match s with
  | [] => ([], [])
  | b :: rest =>
      if p b then let '(taken, remaining) := span p rest in (b :: taken, remaining)
      else ([], s)
  end.

Fixpoint strip_prefix (p s : bytes) : option bytes :=
  match p, s with
  | [], _ => Some s
  | _ :: _, [] => None
  | a :: p', b :: s' => if decide (a = b) then strip_prefix p' s' else None
  end.

(** A function reference at the very start of [s]: its NAME, its ARG when
    there is one, and the bytes that follow the closing brace. *)
Definition match_reference (s : bytes) : option (bytes * option bytes * bytes) :=
  match strip_prefix (B "${!") s with
  | None => None
  | Some s1 =>
      match span is_name_byte s1 with
      | ([], _) => None
      | (_ :: _, []) => None
      | ((_ :: _) as name, b :: s2) =>
          if decide (b = "}"%byte) then Some (name, None, s2)
          else if decide (b = ":"%byte) then
            match span is_arg_byte s2 with
            | ((_ :: _) as arg, c :: rest) =>
                if decide (c = "}"%byte) then Some (name, Some arg, rest)
                else None
            | _ => None
            end
          else None
      end
  end.

(** Modelled from the spec: ContainsFunctionVariables (the file that
    defines it is not among the sources, only its test is): "must return
    true iff at least one well-formed function reference exists", with the
    syntax "${!NAME} or ${!NAME:ARG} where NAME matches [a-z_]+ and ARG
    matches [^}]+ (non-empty)".  The detector looks for a reference at
    every position of the buffer, from left to right. *)
Fixpoint ContainsFunctionVariables (inBytes : bytes) : bool :=
  match inBytes with
  | [] => false
  | _ :: rest =>
      match match_reference inBytes with
      | Some _ => true
      | None => ContainsFunctionVariables rest
      end
  end.

(** The text of a reference, and what makes it well-formed. *)
Definition reference_text (name : bytes) (arg : option bytes) : bytes :=
  B "${!" ++ name ++
  match arg with None => [] | Some a => ":"%byte :: a end ++ B "}".

Definition well_formed_name (name : bytes) : Prop :=
  name ≠ [] ∧ Forall (λ b, is_name_byte b = true) name.

Definition well_formed_arg (arg : option bytes) : Prop :=
  match arg with
  | None => True
  | Some a => a ≠ [] ∧ Forall (λ b, b ≠ "}"%byte) a
  end.

Definition has_function_reference (s : bytes) : Prop :=
  ∃ pre name arg post,
    s = pre ++ reference_text name arg ++ post
    ∧ well_formed_name name ∧ well_formed_arg arg.

(** Whether the three bytes that open a reference stand somewhere in
    [s]. *)
Fixpoint opens_reference (s : bytes) : bool :=
  match s with
  | [] => false
  | _ :: rest =>
      match strip_prefix (B "${!") s with
      | Some _ => true
      | None => opens_reference rest
      end
  end.

(** *** JSON text of the metadata *)

Definition hex_digit (k : N) : byte :=
  match Byte.of_N (if (k <? 10)%N then 48 + k else 87 + k)%N with
  | Some b => b
  | None => "0"%byte
  end.

(** *** UTF-8 as the JSON encoder reads it *)

Definition byte_in (lo hi : N) (b : byte) : bool :=
  ((lo <=? Byte.to_N b) && (Byte.to_N b <=? hi))%N.

(** The size of the well-formed UTF-8 sequence at the start of [s]: one
    byte for 00..7F; two for C2..DF; three for E0..EF, the second byte in
    A0..BF after E0 and in 80..9F after ED; four for F0..F4, the second
    byte in 90..BF after F0 and in 80..8F after F4; every further byte in
    80..BF.  [None] when the first byte starts no such sequence: the
    decoder then gives the replacement character and a size of one. *)
Definition utf8_size (s : bytes) : option nat :=
  match s with
  | [] => None
  | b0 :: rest =>
      if byte_in 0 127 b0 then Some 1%nat
      else if byte_in 194 223 b0 then
        match rest with
        | b1 :: _ => if byte_in 128 191 b1 then Some 2%nat else None
        | _ => None
        end
      else if byte_in 224 239 b0 then
        let lo := if decide (b0 = xe0) then 160%N else 128%N in
        let hi := if decide (b0 = xed) then 159%N else 191%N in
        match rest with
        | b1 :: b2 :: _ =>
            if byte_in lo hi b1 && byte_in 128 191 b2 then Some 3%nat else None
        | _ => None
        end
      else if byte_in 240 244 b0 then
        let lo := if decide (b0 = xf0) then 144%N else 128%N in
        let hi := if decide (b0 = xf4) then 143%N else 191%N in
        match rest with
        | b1 :: b2 :: b3 :: _ =>
            if byte_in lo hi b1 && byte_in 128 191 b2 && byte_in 128 191 b3
            then Some 4%nat else None
        | _ => None
        end
      else None
  end.

(** Modelled from the spec: the JSON text of a string, as the JSON
    encoder of the language (encoding/json, not part of the repository)
    writes it when it marshals a map of strings.  An ASCII byte is written
    as it is, except: the quote and the backslash, written after a
    backslash; line feed, carriage return and tab, written \n, \r, \t;
    the other bytes below 0x20 and the bytes <, > and &, written \u00
    and two lower-case hexadecimal digits.  Backspace and form feed are
    written \b and \f by the encoder since Go 1.22 and \u0008 and \u000c
    before: [names_bs_ff] tells which. *)
Definition json_escape_ascii (names_bs_ff : bool) (b : byte) : bytes :=
  if bool_decide (b = x22) then [x5c; x22]
  else if bool_decide (b = x5c) then [x5c; x5c]
  else if bool_decide (b = x0a) then B "\n"
  else if bool_decide (b = x0d) then B "\r"
  else if bool_decide (b = x09) then B "\t"
  else if bool_decide (b = x08) && names_bs_ff then B "\b"
  else if bool_decide (b = x0c) && names_bs_ff then B "\f"
  else if (Byte.to_N b <? 32)%N || bool_decide (b ∈ [x3c; x3e; x26]) then
    B "\u00" ++ [hex_digit (Byte.to_N b / 16); hex_digit (Byte.to_N b mod 16)]
  else [b].

(** The bytes of a string between its quotes.  A byte that starts no
    well-formed UTF-8 sequence is written \ufffd; the line and paragraph
    separators (E2 80 A8 and E2 80 A9) are written \u2028 and \u2029;
    every other well-formed sequence is copied.  [copy] is the number of
    bytes of the current sequence still to copy. *)
Fixpoint json_escape_from (names_bs_ff : bool) (copy : nat) (s : bytes) : bytes :=
  match s with
  | [] => []
  | b :: rest =>
      match copy with
      | S c => b :: json_escape_from names_bs_ff c rest
      | O =>
          if byte_in 0 127 b then
            json_escape_ascii names_bs_ff b ++ json_escape_from names_bs_ff 0 rest
          else
            let other :=
              match utf8_size s with
              | None => B "\ufffd" ++ json_escape_from names_bs_ff 0 rest
              | Some size => b :: json_escape_from names_bs_ff (pred size) rest
              end in
            match rest with
            | b1 :: b2 :: rest3 =>
                if bool_decide (b = xe2 ∧ b1 = x80 ∧ (b2 = xa8 ∨ b2 = xa9)) then
                  B "\u202" ++ hex_digit (Byte.to_N b2 mod 16)
                    :: json_escape_from names_bs_ff 0 rest3
                else other
            | _ => other
            end
      end
  end.

Definition json_string (names_bs_ff : bool) (s : string) : bytes :=
  x22 :: json_escape_from names_bs_ff 0 (list_byte_of_string s) ++ [x22].

(** Well-formed UTF-8: one well-formed sequence after the other.  [copy]
    is the number of bytes of the current sequence still to come. *)
Fixpoint utf8_ok (copy : nat) (s : bytes) : bool :=
  match s with
  | [] => true
  | b :: rest =>
      match copy with
      | S c => byte_in 128 191 b && utf8_ok c rest
      | O =>
          match utf8_size s with
          | Some size => utf8_ok (pred size) rest
          | None => false
          end
      end
  end.

Definition utf8_string (s : string) : Prop :=
  utf8_ok 0 (list_byte_of_string s) = true.

(** *** Reading the JSON text of a string

    A reader of JSON strings, to say what a text stands for: after the
    opening quote, a backslash introduces an escape (a quote, a backslash,
    a slash, b, f, n, r, t, or u and the four hexadecimal digits of a code
    point of the basic plane, read as its UTF-8 bytes), a quote ends the
    string, a byte below 0x20 is refused, and every other byte stands for
    itself.  Surrogate pairs, which the encoder does not write, are not
    joined. *)
Definition hex_value (b : byte) : option N :=
  if byte_in 48 57 b then Some (Byte.to_N b - 48)%N
  else if byte_in 97 102 b then Some (Byte.to_N b - 87)%N
  else if byte_in 65 70 b then Some (Byte.to_N b - 55)%N
  else None.

Definition byte_of_N (k : N) : byte := default x00 (Byte.of_N k).

Definition utf8_encode (cp : N) : bytes :=
  if (cp <? 128)%N then [byte_of_N cp]
  else if (cp <? 2048)%N then
    [byte_of_N (192 + cp / 64); byte_of_N (128 + cp mod 64)]
  else
    [byte_of_N (224 + cp / 4096); byte_of_N (128 + (cp / 64) mod 64);
     byte_of_N (128 + cp mod 64)].

Definition simple_escape (e : byte) : option byte :=
  if bool_decide (e = x22) then Some x22
  else if bool_decide (e = x5c) then Some x5c
  else if bool_decide (e = "/"%byte) then Some "/"%byte
  else if bool_decide (e = "b"%byte) then Some x08
  else if bool_decide (e = "f"%byte) then Some x0c
  else if bool_decide (e = "n"%byte) then Some x0a
  else if bool_decide (e = "r"%byte) then Some x0d
  else if bool_decide (e = "t"%byte) then Some x09
  else None.

Definition read_more (first : bytes) (more : option (bytes * bytes))
    : option (bytes * bytes) :=
  match more with
  | Some (text, after) => Some (first ++ text, after)
  | None => None
  end.

(** The bytes a string text stands for, up to its closing quote, and the
    bytes after that quote. *)
Fixpoint json_read_from (s : bytes) : option (bytes * bytes) :=
  match s with
  | [] => None
  | b :: rest =>
      if bool_decide (b = x22) then Some ([], rest)
      else if bool_decide (b = x5c) then
        match rest with
        | [] => None
        | e :: rest1 =>
            if bool_decide (e = "u"%byte) then
              match rest1 with
              | h1 :: h2 :: h3 :: h4 :: rest5 =>
                  match hex_value h1, hex_value h2, hex_value h3, hex_value h4 with
                  | Some d1, Some d2, Some d3, Some d4 =>
                      read_more
                        (utf8_encode (((d1 * 16 + d2) * 16 + d3) * 16 + d4)%N)
                        (json_read_from rest5)
                  | _, _, _, _ => None
                  end
              | _ => None
              end
            else
              match simple_escape e with
              | Some c => read_more [c] (json_read_from rest1)
              | None => None
              end
        end
      else if (Byte.to_N b <? 32)%N then None
      else read_more [b] (json_read_from rest)
  end.

Definition json_read_string (s : bytes) : option (string * bytes) :=
  match s with
  | [] => None
  | b :: rest =>
      if bool_decide (b = x22) then
        match json_read_from rest with
        | Some (text, after) => Some (string_of_list_byte text, after)
        | None => None
        end
      else None
  end.

(** The bytes that the encoder writes as they are: the ASCII bytes from
    the space on, but the quote, the backslash, <, > and &. *)
Definition json_plain (b : byte) : Prop :=
  (32 ≤ Byte.to_N b < 128)%N ∧ b ∉ [x22; x5c; x3c; x3e; x26].

#[global] Instance json_plain_dec (b : byte) : Decision (json_plain b).
Proof. unfold json_plain. apply _. Defined.

Definition plain_string (s : string) : Prop :=
  Forall json_plain (list_byte_of_string s).

#[global] Instance plain_string_dec (s : string) : Decision (plain_string s).
Proof. unfold plain_string. apply _. Defined.

(** The bytes that may stand in the text of a string: no control byte
    and none of <, > and &. *)
Definition json_safe (b : byte) : Prop :=
  (32 ≤ Byte.to_N b)%N ∧ b ∉ [x3c; x3e; x26].

#[global] Instance json_safe_dec (b : byte) : Decision (json_safe b).
Proof. unfold json_safe. apply _. Defined.

Definition json_member (names_bs_ff : bool) (kv : string * string) : bytes :=
  json_string names_bs_ff kv.1 ++ ":"%byte :: json_string names_bs_ff kv.2.

Fixpoint join_comma (items : list bytes) : bytes :=
  match items with
  | [] => []
  | [item] => item
  | item :: rest => item ++ ","%byte :: join_comma rest
  end.

(** Keys are compared as strings, byte by byte. *)
Definition key_le (x y : string * string) : Prop := String.le x.1 y.1.

#[global] Instance key_le_dec : RelDecision key_le.
Proof. intros x y. unfold key_le. apply _. Defined.

Definition sorted_entries (md : gmap string string) : list (string * string) :=
  merge_sort key_le (map_to_list md).

(** Modelled from the spec: the JSON text of the metadata, "keys sorted
    lexicographically", as the encoder writes a map of strings: the
    members in the order of their keys, separated by commas, between
    braces, without white space. *)
Definition json_object (names_bs_ff : bool) (md : gmap string string) : bytes :=
  B "{" ++ join_comma (json_member names_bs_ff <$> sorted_entries md) ++ B "}".

(** *** The function table and the rewriter *)

Section functions.

(** The functions of the table that read the host name, the clock, the
    counters or the JSON content of a part are given by [others]. *)
Variable others : string → option (Message → string → bytes).

(** Whether the JSON encoder in use writes backspace and form feed by
    name (see [json_escape_ascii]). *)
Variable names_bs_ff : bool.

(** Modelled from the spec: the [metadata] function (defined next to
    ReplaceFunctionVariables, which is not among the sources): "with key:
    the metadata value for that key, empty if absent; without:
    deterministic JSON object of all metadata". *)
Definition metadata_function (msg : Message) (arg : string) : bytes :=
  if String.eqb arg "" then json_object names_bs_ff (metadata msg)
  else list_byte_of_string (default ""%string (metadata msg !! arg)).

(** Modelled from the spec: [echo], "the arg verbatim (empty if absent)". *)
Definition echo_function (msg : Message) (arg : string) : bytes :=
  list_byte_of_string arg.

Definition functionVars (name : string) : option (Message → string → bytes) :=
  if String.eqb name "metadata" then Some metadata_function
  else if String.eqb name "echo" then Some echo_function
  else others name.

(** What a matched reference is replaced with: the expansion of a known
    function, the reference itself otherwise. *)
Definition expand (msg : Message) (name : bytes) (arg : option bytes) : bytes :=
  match functionVars (string_of_list_byte name) with
  | Some ftor => ftor msg (string_of_list_byte (default [] arg))
  | None => reference_text name arg
  end.

(** One step per reference or literal byte; [fuel] bounds the steps. *)
Fixpoint replace_steps (fuel : nat) (msg : Message) (s : bytes) : bytes :=
  match fuel, s with
  | _, [] => []
  | O, _ => s
  | S fuel', b :: rest =>
      match match_reference s with
      | Some (name, arg, after) =>
          expand msg name arg ++ replace_steps fuel' msg after
      | None => b :: replace_steps fuel' msg rest
      end
  end.

(** Modelled from the spec: ReplaceFunctionVariables (not among the
    sources, only its tests are): every well-formed reference, from left
    to right, is replaced by the expansion of its function; "an
    unrecognized NAME is replaced by the literal input". *)
Definition ReplaceFunctionVariables (msg : Message) (inBytes : bytes) : bytes :=
  replace_steps (length inBytes) msg inBytes.

End functions.

End text.

(** ** lib/input: wrapping an input with pipelines *)

Module input.
Import types.

(** Modelled from the spec: a Pipeline as the wrapper sees it (the
    pipeline package is not among the sources): it consumes an upstream
    transaction stream, "Consume(upstream) -> ok | already-started",
    produces one of its own, and can be closed. *)
Record Pipeline : Type := MkPipeline {
  tsIn : TransactionChan;
  ts : nat;
  pipe_closed : bool
}.

Definition Pipeline_Consume (p : Pipeline) (up : TransactionChan)
    : Pipeline * option error :=
  match tsIn p with
  | Some _ => (p, Some ErrAlreadyStarted)
  | None => ({| tsIn := up; ts := ts p; pipe_closed := pipe_closed p |}, None)
  end.

Definition Pipeline_CloseAsync (p : Pipeline) : Pipeline :=
  {| tsIn := tsIn p; ts := ts p; pipe_closed := true |}.

(** What calling a pipeline constructor gives. *)
Definition ConstructorFunc : Type := Pipeline + error.

(** Modelled from the spec: an Input is a plain input, known by the
    channel it produces on, or an input wrapped with a pipeline. *)
Inductive Type_ : Type :=
| Plain (out : nat) (closed : bool)
| WithPipeline (inner : Type_) (pipe : Pipeline).

Definition TransactionChan_of (i : Type_) : TransactionChan :=
  match i with
  | Plain out _ => Some out
  | WithPipeline _ pipe => Some (ts pipe)
  end.

(** "shutdown cascades input first, then each pipeline in order" *)
Fixpoint CloseAsync (i : Type_) : Type_ :=
  match i with
  | Plain out _ => Plain out true
  | WithPipeline inner pipe =>
      WithPipeline (CloseAsync inner) (Pipeline_CloseAsync pipe)
  end.

(** "constructs each pipeline; if any constructor fails, returns that
    error and closes already-constructed pipelines" *)
Fixpoint construct_all (ctors : list ConstructorFunc) (built : list Pipeline)
    : list Pipeline + error * list Pipeline :=
  match ctors with
  | [] => inl built
  | inl pipe :: rest => construct_all rest (built ++ [pipe])
  | inr e :: _ => inr (e, Pipeline_CloseAsync <$> built)
  end.

(** "splices input -> pipeline_1 -> ... -> pipeline_n" *)
Fixpoint splice (i : Type_) (pipes : list Pipeline) : Type_ :=
  match pipes with
  | [] => i
  | pipe :: rest =>
      splice (WithPipeline i (Pipeline_Consume pipe (TransactionChan_of i)).1) rest
  end.

(** Modelled from the spec: WrapWithPipelines (the wrapper is not among
    the sources, only its tests are).  The result is the composite input
    and the error; the pipelines closed on failure come third. *)
Definition WrapWithPipelines (i : Type_) (pipeConstructors : list ConstructorFunc)
    : option Type_ * option error * list Pipeline :=
  match construct_all pipeConstructors [] with
  | inl pipes => (Some (splice i pipes), None, [])
  | inr (e, closed) => (None, Some e, closed)
  end.

End input.

(** ** Two statements in the wording of the specification *)

Module claims.
Import types message processor.

(** Batch accounting as the specification words it: the parts that come
    out are the parts that went in, and every output but the last has
    exactly [P] parts. *)
Definition batch_accounting (P : Z) (msgs : list Message) : Prop :=
  ∀ c, (NewCombine {| Type_ := "combine"; Combine_ := {| Parts := P |};
                      BoundsCheck_ := NewBoundsCheckConfig |}).1 = Some c →
  Forall (λ m, Len m ≤ P) msgs →
  let outs := (Combine_run c msgs).2 in
  concat (GetAll <$> outs) ≡ₚ concat (GetAll <$> msgs)
  ∧ ∀ (i : nat) (out : Message),
      outs !! i = Some out → (S i < length outs)%nat → Len out = P.

(** Construction as the specification words it: a threshold below one is
    refused with an error and no component is made. *)
Definition construction_refuses (cf : Config) : Prop :=
  Parts (Combine_ cf) < 1 →
  ∃ e, NewCombine cf = (None, Some e).

End claims.

(** ** Runs of BoundsCheck and one turn of the output loop *)

Module drivers.
Import types message processor.

#[global] Instance within_bounds_dec (bc : BoundsCheckConfig) (msg : Message) :
  Decision (within_bounds bc msg).
Proof. unfold within_bounds. apply _. Defined.

(** The pipeline that owns a BoundsCheck hands it one message after the
    other; the messages it emits are collected in order. *)
Fixpoint BoundsCheck_run (m : BoundsCheck) (msgs : list Message)
    : BoundsCheck * list Message :=
  match msgs with
  | [] => (m, [])
  | msg :: rest =>
      let '(m1, (outs, _)) := BoundsCheck_ProcessMessage m msg in
      let '(m2, outs') := BoundsCheck_run m1 rest in
      (m2, outs ++ outs')
  end.

(** The counters of [Nanomsg.loop]. *)
Record LoopCounters : Type := {
  mCount : Z;
  mSendErr : Z;
  mSendSucc : Z
}.

(** [for _, part := range ts.Payload.GetAll() { if err = s.socket.Send(part);
    err != nil { break } }].  What the socket answers to the Send number
    [i] of the turn is [Send i part]; the result is the number of Sends
    made, and the error. *)
Fixpoint send_parts (Send : nat → bytes → option error) (i : nat)
    (ps : list bytes) : nat * option error :=
  match ps with
  | [] => (i, None)
  | part :: rest =>
      match Send i part with
      | Some e => (S i, Some e)
      | None => send_parts Send (S i) rest
      end
  end.

(** One turn of the loop, from the transaction received to the response
    put on its channel: the counters, the number of Sends made, and the
    response.  The selects on the close channel are not modelled. *)
Definition loop_turn (Send : nat → bytes → option error) (k : LoopCounters)
    (payload : Message) : LoopCounters * nat * Response :=
  let '(sends, err) := send_parts Send 0 (GetAll payload) in
  ({| mCount := mCount k + 1;
      mSendErr := match err with Some _ => mSendErr k + 1 | None => mSendErr k end;
      mSendSucc := match err with Some _ => mSendSucc k | None => mSendSucc k + 1 end |},
   sends,
   response.NewError err).

(** A string without a comma. *)
Definition comma_free (u : string) : Prop :=
  ","%char ∉ list_ascii_of_string u.

End drivers.

(** * Properties *)

Import types message processor.

(** ** Messages *)

Lemma iter_entries_SetMetadata (entries : list (string * string)) (nm : Message) :
  iter_entries (λ k v nm, (SetMetadata nm k v, None)) entries nm
  = ({| parts := parts nm;
        metadata := foldl (λ md kv, <[kv.1 := kv.2]> md) (metadata nm) entries |},
     None).
Proof.
  revert nm. induction entries as [|[k v] entries IH]; intros nm; simpl.
  - by destruct nm.
  - by rewrite IH.
Qed.

Lemma foldl_insert_list_to_map (entries : list (string * string))
    (md : gmap string string) :
  NoDup entries.*1 →
  foldl (λ md kv, <[kv.1 := kv.2]> md) md entries = list_to_map entries ∪ md.
Proof.
  revert md. induction entries as [|[k v] entries IH]; intros md Hnd; simpl.
  - by rewrite (left_id_L ∅ (∪)).
  - apply NoDup_cons in Hnd as [Hk Hnd].
    rewrite IH by done.
    rewrite <- insert_union_l. symmetry.
    apply insert_union_r. by apply not_elem_of_list_to_map_1.
Qed.

Lemma copy_metadata_New (msg : Message) (buf : list bytes) :
  copy_metadata msg (New buf) = {| parts := buf; metadata := metadata msg |}.
Proof.
  unfold copy_metadata, IterMetadata. rewrite iter_entries_SetMetadata. simpl.
  rewrite foldl_insert_list_to_map by apply NoDup_fst_map_to_list.
  rewrite list_to_map_to_list. by rewrite (right_id_L ∅ (∪)).
Qed.

(** ** Combine *)

Lemma append_parts_app (buf ps : list bytes) : append_parts buf ps = buf ++ ps.
Proof.
  unfold append_parts. revert buf.
  induction ps as [|p ps IH]; intros buf; simpl.
  - by rewrite app_nil_r.
  - rewrite IH. by rewrite <- app_assoc.
Qed.

(** The three branches of [Combine_ProcessMessage], each by its guard. *)
Lemma Combine_ProcessMessage_oversize (c : Combine) (msg : Message) :
  n c < Len msg →
  Combine_ProcessMessage c msg
  = ({| n := n c; c_parts := c_parts c; c_mCount := c_mCount c + 1;
        c_mWarnParts := c_mWarnParts c + 1; c_mSent := c_mSent c + 1;
        c_mSentParts := c_mSentParts c + Len msg; c_mDropped := c_mDropped c |},
     ([msg], None)).
Proof.
  intros H. unfold Combine_ProcessMessage.
  destruct (Z.gtb_spec (Len msg) (n c)); [done | lia].
Qed.

Lemma Combine_ProcessMessage_batch (c : Combine) (msg : Message) :
  Len msg ≤ n c →
  n c ≤ Z.of_nat (length (c_parts c ++ GetAll msg)) →
  Combine_ProcessMessage c msg
  = ({| n := n c; c_parts := []; c_mCount := c_mCount c + 1;
        c_mWarnParts := c_mWarnParts c; c_mSent := c_mSent c + 1;
        c_mSentParts :=
          c_mSentParts c + Z.of_nat (length (c_parts c ++ GetAll msg));
        c_mDropped := c_mDropped c |},
     ([{| parts := c_parts c ++ GetAll msg; metadata := metadata msg |}], None)).
Proof.
  intros H1 H2. unfold Combine_ProcessMessage.
  destruct (Z.gtb_spec (Len msg) (n c)); [lia |].
  rewrite append_parts_app, copy_metadata_New.
  destruct (Z.geb_spec (Z.of_nat (length (c_parts c ++ GetAll msg))) (n c)); [done | lia].
Qed.

Lemma Combine_ProcessMessage_pending (c : Combine) (msg : Message) :
  Len msg ≤ n c →
  Z.of_nat (length (c_parts c ++ GetAll msg)) < n c →
  Combine_ProcessMessage c msg
  = ({| n := n c; c_parts := c_parts c ++ GetAll msg; c_mCount := c_mCount c + 1;
        c_mWarnParts := c_mWarnParts c; c_mSent := c_mSent c;
        c_mSentParts := c_mSentParts c; c_mDropped := c_mDropped c + 1 |},
     ([], Some SkipAck)).
Proof.
  intros H1 H2. unfold Combine_ProcessMessage.
  destruct (Z.gtb_spec (Len msg) (n c)); [lia |].
  rewrite append_parts_app.
  destruct (Z.geb_spec (Z.of_nat (length (c_parts c ++ GetAll msg))) (n c)); [lia | done].
Qed.

Import text.

(** C3: the contract of [Combine.ProcessMessage].  A message with more
    than [n] parts is returned as it is, with no response.  Otherwise its
    parts are appended to the buffer; if the buffer then holds at least
    [n] parts, exactly one message is returned, whose parts are the whole
    buffer in order, and the buffer is cleared; if not, no message is
    returned and the response is SkipAck. *)
Theorem Combine_ProcessMessage_contract (c : Combine) (msg : Message) :
  let buf := c_parts c ++ GetAll msg in
  let r := Combine_ProcessMessage c msg in
  (n c < Len msg → r.2 = ([msg], None))
  ∧ (Len msg ≤ n c → n c ≤ Z.of_nat (length buf) →
     r.2 = ([{| parts := buf; metadata := metadata msg |}], None)
     ∧ c_parts r.1 = [])
  ∧ (Len msg ≤ n c → Z.of_nat (length buf) < n c →
     r.2 = ([], Some SkipAck) ∧ c_parts r.1 = buf).
Proof.
  cbv zeta. split; [|split].
  - intros H. by rewrite Combine_ProcessMessage_oversize.
  - intros H1 H2. by rewrite Combine_ProcessMessage_batch.
  - intros H1 H2. by rewrite Combine_ProcessMessage_pending.
Qed.

Lemma Combine_ProcessMessage_contract_witness :
  let c := {| n := 2; c_parts := [B "a"]; c_mCount := 1; c_mWarnParts := 0;
              c_mSent := 0; c_mSentParts := 0; c_mDropped := 1 |} in
  let r := Combine_ProcessMessage c (New [B "b"]) in
  r.2 = ([{| parts := [B "a"; B "b"]; metadata := ∅ |}], None)
  ∧ c_parts r.1 = [].
Proof.
  intros c r.
  destruct (Combine_ProcessMessage_contract c (New [B "b"])) as (_ & Hbatch & _).
  apply Hbatch; vm_compute; discriminate.
Defined.

(** C10: in the oversize case the buffer of pending parts is the same
    after the call as before it (and so is the threshold). *)
Theorem Combine_oversize_keeps_buffer (c : Combine) (msg : Message) :
  n c < Len msg →
  c_parts (Combine_ProcessMessage c msg).1 = c_parts c
  ∧ n (Combine_ProcessMessage c msg).1 = n c.
Proof.
  intros H. by rewrite Combine_ProcessMessage_oversize.
Qed.

Lemma Combine_oversize_keeps_buffer_witness :
  let c := {| n := 2; c_parts := [B "a"]; c_mCount := 1; c_mWarnParts := 0;
              c_mSent := 0; c_mSentParts := 0; c_mDropped := 1 |} in
  let msg := New [B "x"; B "y"; B "z"] in
  c_parts (Combine_ProcessMessage c msg).1 = [B "a"]
  ∧ n (Combine_ProcessMessage c msg).1 = 2.
Proof.
  intros c msg.
  apply (Combine_oversize_keeps_buffer c msg). vm_compute. reflexivity.
Defined.

(** C4: when [Combine.ProcessMessage] emits a batch (the message is not
    oversize and the buffer reaches the threshold), the metadata of the
    batch is the metadata of the message just processed.  That message is
    the last to have entered the batch: the batch's parts end with its
    parts, and in a state whose buffer is below the threshold it has at
    least one part. *)
Theorem Combine_batch_metadata (c c' : Combine) (msg out : Message)
    (res : option Response) :
  Len msg ≤ n c →
  Combine_ProcessMessage c msg = (c', ([out], res)) →
  metadata out = metadata msg
  ∧ parts out = c_parts c ++ parts msg
  ∧ (Z.of_nat (length (c_parts c)) < n c → parts msg ≠ []).
Proof.
  intros Hle Hpm.
  destruct (Z_lt_le_dec (Z.of_nat (length (c_parts c ++ GetAll msg))) (n c))
    as [Hlt|Hge].
  - rewrite Combine_ProcessMessage_pending in Hpm by done. discriminate.
  - rewrite Combine_ProcessMessage_batch in Hpm by done.
    injection Hpm as _ <- _. simpl. repeat split.
    intros Hbuf Hnil. unfold GetAll in Hge. rewrite Hnil, app_nil_r in Hge. lia.
Qed.

Lemma Combine_batch_metadata_witness :
  let msg := SetMetadata (New [B "b"]) "foo" "bar" in
  let out := {| parts := [B "a"; B "b"]; metadata := {[ "foo"%string := "bar"%string ]} |} in
  metadata out = metadata msg
  ∧ parts out = [B "a"] ++ parts msg
  ∧ (Z.of_nat (length [B "a"]) < 2 → parts msg ≠ []).
Proof.
  intros msg out.
  apply (Combine_batch_metadata
           {| n := 2; c_parts := [B "a"]; c_mCount := 1; c_mWarnParts := 0;
              c_mSent := 0; c_mSentParts := 0; c_mDropped := 1 |}
           {| n := 2; c_parts := []; c_mCount := 2; c_mWarnParts := 0;
              c_mSent := 1; c_mSentParts := 2; c_mDropped := 1 |}
           msg out None).
  - vm_compute. discriminate.
  - vm_compute. reflexivity.
Defined.

(** *** Runs of Combine *)

Lemma Combine_run_cons (c : Combine) (msg : Message) (rest : list Message) :
  Combine_run c (msg :: rest)
  = ((Combine_run (Combine_ProcessMessage c msg).1 rest).1,
     (Combine_ProcessMessage c msg).2.1
       ++ (Combine_run (Combine_ProcessMessage c msg).1 rest).2).
Proof.
  simpl. destruct (Combine_ProcessMessage c msg) as [c1 [outs res]].
  simpl. by destruct (Combine_run c1 rest).
Qed.

(** Whatever the messages, a buffer below the threshold stays below it. *)
Lemma Combine_run_buffer_below (c : Combine) (msgs : list Message) :
  Z.of_nat (length (c_parts c)) < n c →
  Z.of_nat (length (c_parts (Combine_run c msgs).1)) < n c
  ∧ n (Combine_run c msgs).1 = n c.
Proof.
  revert c. induction msgs as [|msg rest IH]; intros c Hbuf; [done|].
  rewrite Combine_run_cons. simpl.
  destruct (Z_lt_le_dec (n c) (Len msg)) as [Hover|Hfit].
  - rewrite Combine_ProcessMessage_oversize by done. simpl.
    by apply (IH (MkCombine _ _ _ _ _ _ _)).
  - destruct (Z_lt_le_dec (Z.of_nat (length (c_parts c ++ GetAll msg))) (n c))
      as [Hlt|Hge].
    + rewrite Combine_ProcessMessage_pending by done. simpl.
      by apply (IH (MkCombine _ _ _ _ _ _ _)).
    + rewrite Combine_ProcessMessage_batch by done. simpl.
      apply (IH (MkCombine _ _ _ _ _ _ _)). simpl. lia.
Qed.

(** Accounting for a run in which no message is oversize, from any state:
    the parts emitted followed by the parts left pending are the parts
    pending before followed by the parts received, in the same order. *)
Lemma Combine_run_accounting (c : Combine) (msgs : list Message) :
  Forall (λ m, Len m ≤ n c) msgs →
  concat (GetAll <$> (Combine_run c msgs).2) ++ c_parts (Combine_run c msgs).1
  = c_parts c ++ concat (GetAll <$> msgs).
Proof.
  revert c. induction msgs as [|msg rest IH]; intros c Hall.
  { simpl. by rewrite app_nil_r. }
  apply Forall_cons in Hall as [Hfit Hall].
  rewrite Combine_run_cons. simpl.
  destruct (Z_lt_le_dec (Z.of_nat (length (c_parts c ++ GetAll msg))) (n c))
    as [Hlt|Hge].
  - rewrite Combine_ProcessMessage_pending by done. simpl.
    rewrite (IH (MkCombine _ _ _ _ _ _ _)) by done. simpl.
    by rewrite <- app_assoc.
  - rewrite Combine_ProcessMessage_batch by done. simpl.
    rewrite <- app_assoc. rewrite <- app_assoc. f_equal. f_equal.
    by rewrite (IH (MkCombine _ _ _ _ _ _ _)).
Qed.

(** The sizes of the batches of such a run. *)
Lemma Combine_run_batch_sizes (c : Combine) (msgs : list Message) :
  Forall (λ m, Len m ≤ n c) msgs →
  Forall (λ out, n c ≤ Len out) (Combine_run c msgs).2
  ∧ (Z.of_nat (length (c_parts c)) < n c →
     Forall (λ out, Len out ≤ 2 * n c - 1) (Combine_run c msgs).2).
Proof.
  revert c. induction msgs as [|msg rest IH]; intros c Hall.
  { simpl. split; [|intros _]; constructor. }
  apply Forall_cons in Hall as [Hfit Hall].
  rewrite Combine_run_cons. simpl.
  destruct (Z_lt_le_dec (Z.of_nat (length (c_parts c ++ GetAll msg))) (n c))
    as [Hlt|Hge].
  - rewrite Combine_ProcessMessage_pending by done. simpl.
    destruct (IH (MkCombine (n c) (c_parts c ++ GetAll msg) (c_mCount c + 1)
                    (c_mWarnParts c) (c_mSent c) (c_mSentParts c)
                    (c_mDropped c + 1)) Hall) as [IH1 IH2].
    split; [done|]. intros _. by apply IH2.
  - rewrite Combine_ProcessMessage_batch by done. simpl.
    destruct (IH (MkCombine (n c) [] (c_mCount c + 1) (c_mWarnParts c)
                    (c_mSent c + 1)
                    (c_mSentParts c + Z.of_nat (length (c_parts c ++ GetAll msg)))
                    (c_mDropped c)) Hall) as [IH1 IH2].
    simpl in IH1, IH2. split.
    + constructor; [|done]. unfold Len. simpl. lia.
    + intros Hbuf. constructor.
      * unfold Len, GetAll in *. simpl. rewrite length_app in *. lia.
      * apply IH2. lia.
Qed.

(** A run in which no message is oversize cuts the messages received,
    after those whose parts were pending, into consecutive groups: each
    group is emitted as one batch, with the metadata of its last message,
    and the messages after the last group are left pending. *)
Lemma Combine_run_groups (c : Combine) (pending msgs : list Message) :
  c_parts c = concat (GetAll <$> pending) →
  Forall (λ m, Len m ≤ n c) msgs →
  ∃ (groups : list (list Message)) (leftover : list Message),
    pending ++ msgs = concat groups ++ leftover
    ∧ (Combine_run c msgs).2 = batch_of <$> groups
    ∧ Forall (λ g, g ≠ []) groups
    ∧ c_parts (Combine_run c msgs).1 = concat (GetAll <$> leftover).
Proof.
  revert c pending. induction msgs as [|msg rest IH]; intros c pending Hbuf Hall.
  { exists [], pending. simpl. rewrite app_nil_r. repeat split; [constructor | done]. }
  apply Forall_cons in Hall as [Hfit Hall].
  rewrite Combine_run_cons.
  destruct (Z_lt_le_dec (Z.of_nat (length (c_parts c ++ GetAll msg))) (n c))
    as [Hlt|Hge].
  - rewrite Combine_ProcessMessage_pending by done. simpl.
    destruct (IH (MkCombine (n c) (c_parts c ++ GetAll msg) (c_mCount c + 1)
                    (c_mWarnParts c) (c_mSent c) (c_mSentParts c)
                    (c_mDropped c + 1)) (pending ++ [msg]))
      as (groups & leftover & Hcut & Houts & Hne & Hleft); [|done|].
    { simpl. rewrite Hbuf, fmap_app, concat_app. simpl. by rewrite app_nil_r. }
    exists groups, leftover. rewrite <- Hcut, <- app_assoc. done.
  - rewrite Combine_ProcessMessage_batch by done. simpl.
    destruct (IH (MkCombine (n c) [] (c_mCount c + 1) (c_mWarnParts c)
                    (c_mSent c + 1)
                    (c_mSentParts c + Z.of_nat (length (c_parts c ++ GetAll msg)))
                    (c_mDropped c)) [])
      as (groups & leftover & Hcut & Houts & Hne & Hleft); [done..|].
    exists ((pending ++ [msg]) :: groups), leftover. simpl in *.
    rewrite <- (app_assoc (pending ++ [msg])), <- Hcut, <- app_assoc.
    repeat split; try done.
    + rewrite Houts. f_equal. unfold batch_of.
      rewrite last_snoc, fmap_app, concat_app, Hbuf. simpl.
      by rewrite app_nil_r.
    + constructor; [|done]. by destruct pending.
Qed.

(** C1, as the code has it: for messages of at most [P] parts each, given
    in turn to a new Combine with threshold [P], the parts emitted
    together with the parts still pending in the buffer are, as a
    multiset, the parts received; every emitted message has at least [P]
    parts and, when [P] is at least one, at most [2P - 1]. *)
Theorem Combine_batch_accounting (cf : Config) (c : Combine)
    (msgs : list Message) :
  (NewCombine cf).1 = Some c →
  Forall (λ m, Len m ≤ Parts (Combine_ cf)) msgs →
  let P := Parts (Combine_ cf) in
  let r := Combine_run c msgs in
  concat (GetAll <$> r.2) ++ c_parts r.1 ≡ₚ concat (GetAll <$> msgs)
  ∧ Forall (λ out, P ≤ Len out ∧ (1 ≤ P → Len out ≤ 2 * P - 1)) r.2.
Proof.
  intros Hnew Hall. simpl in Hnew. injection Hnew as <-. cbv zeta. split.
  - by rewrite Combine_run_accounting.
  - destruct (Combine_run_batch_sizes
               (MkCombine (Parts (Combine_ cf)) [] 0 0 0 0 0) msgs Hall)
      as [Hlo Hhi]. simpl in Hlo, Hhi.
    apply Forall_forall. intros out Hin. split.
    + by apply (proj1 (Forall_forall _ _) Hlo).
    + intros HP. apply (proj1 (Forall_forall _ _) (Hhi ltac:(lia))). done.
Qed.

Lemma Combine_batch_accounting_witness :
  let cf := {| Type_ := "combine"; Combine_ := {| Parts := 2 |};
               BoundsCheck_ := NewBoundsCheckConfig |} in
  let c := {| n := 2; c_parts := []; c_mCount := 0; c_mWarnParts := 0;
              c_mSent := 0; c_mSentParts := 0; c_mDropped := 0 |} in
  let msgs := [New [B "a"]; New [B "b"; B "c"]; New [B "d"]] in
  let r := Combine_run c msgs in
  concat (GetAll <$> r.2) ++ c_parts r.1 ≡ₚ concat (GetAll <$> msgs)
  ∧ Forall (λ out, 2 ≤ Len out ∧ (1 ≤ 2 → Len out ≤ 2 * 2 - 1)) r.2.
Proof.
  intros cf c msgs.
  apply (Combine_batch_accounting cf c msgs).
  - reflexivity.
  - repeat constructor; vm_compute; discriminate.
Defined.

(** C1, as the specification words it, fails: with threshold 2 the
    messages [a], [b c], [d], [e f] come out as [a b c] and [d e f]; the
    first of the two has three parts. *)
Lemma Combine_batch_accounting_counterexample :
  ¬ claims.batch_accounting 2
      [New [B "a"]; New [B "b"; B "c"]; New [B "d"]; New [B "e"; B "f"]].
Proof.
  intros H.
  destruct (H _ eq_refl) as [_ Hsize].
  { repeat constructor; vm_compute; discriminate. }
  specialize (Hsize 0%nat (New [B "a"; B "b"; B "c"])).
  assert (Hbad : Len (New [B "a"; B "b"; B "c"]) = 2).
  { apply Hsize; vm_compute; [reflexivity | lia]. }
  vm_compute in Hbad. discriminate.
Qed.

(** C7, as the code has it: for every configuration, those with a
    threshold below one included, [NewCombine] returns no error and makes
    the component, with the configured threshold and an empty buffer. *)
Theorem NewCombine_always_succeeds (cf : Config) :
  ∃ c, NewCombine cf = (Some c, None)
       ∧ n c = Parts (Combine_ cf) ∧ c_parts c = [].
Proof. eexists. split; [reflexivity|]. done. Qed.

(** C7, as the specification words it, fails: a threshold of zero is
    accepted. *)
Lemma NewCombine_counterexample :
  ¬ claims.construction_refuses
      {| Type_ := "combine"; Combine_ := {| Parts := 0 |};
         BoundsCheck_ := NewBoundsCheckConfig |}.
Proof.
  intros H. destruct H as [e He]; [simpl; lia|]. discriminate.
Qed.

(** Scenarios S1 and S2: with threshold 2, the messages [a], [b], [c]
    give the batch [a b] and leave [c] pending with a SkipAck; the message
    [x y z] is passed through at once. *)
Example Combine_scenarios :
  let c := {| n := 2; c_parts := []; c_mCount := 0; c_mWarnParts := 0;
              c_mSent := 0; c_mSentParts := 0; c_mDropped := 0 |} in
  let r := Combine_run c [New [B "a"]; New [B "b"]; New [B "c"]] in
  r.2 = [New [B "a"; B "b"]]
  ∧ c_parts r.1 = [B "c"]
  ∧ (Combine_ProcessMessage c (New [B "a"])).2 = ([], Some SkipAck)
  ∧ (Combine_ProcessMessage c (New [B "x"; B "y"; B "z"])).2
    = ([New [B "x"; B "y"; B "z"]], None).
Proof. by vm_compute. Qed.

(** The example of the processor's description: with threshold 4, a
    message of two parts followed by one of three gives one message of
    five parts. *)
Example Combine_description_example :
  let c := {| n := 4; c_parts := []; c_mCount := 0; c_mWarnParts := 0;
              c_mSent := 0; c_mSentParts := 0; c_mDropped := 0 |} in
  (Combine_run c [New [B "1"; B "2"]; New [B "3"; B "4"; B "5"]]).2
  = [New [B "1"; B "2"; B "3"; B "4"; B "5"]].
Proof. by vm_compute. Qed.

(** ** BoundsCheck *)

Lemma part_size_rejected_false (bc : BoundsCheckConfig) (ps : list bytes) :
  part_size_rejected bc ps = false
  ↔ Forall (λ part : bytes,
              MinPartSize bc ≤ Z.of_nat (length part) ≤ MaxPartSize bc) ps.
Proof.
  induction ps as [|part rest IH]; simpl.
  - split; [constructor | done].
  - rewrite Forall_cons, <- IH.
    destruct (Z.gtb_spec (Z.of_nat (length part)) (MaxPartSize bc));
      destruct (Z.ltb_spec (Z.of_nat (length part)) (MinPartSize bc));
      simpl; (split; [try done | try (intros [? ?]; lia)]).
    by intros [_ ?].
Qed.

Lemma BoundsCheck_outcomes (m : BoundsCheck) (msg : Message) :
  (BoundsCheck_ProcessMessage m msg).2 = ([msg], None)
  ∨ (BoundsCheck_ProcessMessage m msg).2 = ([], Some Ack).
Proof.
  unfold BoundsCheck_ProcessMessage.
  repeat match goal with |- context [if ?b then _ else _] => destruct b end;
    simpl; auto.
Qed.

Lemma BoundsCheck_emits_iff (m : BoundsCheck) (msg : Message) :
  (BoundsCheck_ProcessMessage m msg).2 = ([msg], None)
  ↔ within_bounds (BoundsCheck_ (conf m)) msg.
Proof.
  unfold BoundsCheck_ProcessMessage, within_bounds.
  rewrite <- part_size_rejected_false.
  destruct (Z.ltb_spec (Len msg) (MinParts (BoundsCheck_ (conf m)))).
  { simpl. split; [done | lia]. }
  destruct (Z.gtb_spec (Len msg) (MaxParts (BoundsCheck_ (conf m)))).
  { simpl. split; [done | lia]. }
  destruct (part_size_rejected _ _); simpl.
  - split; [done | by intros [_ ?]].
  - split; [intros _; split; [lia | done] | done].
Qed.

(** C2: [BoundsCheck.ProcessMessage] returns the message itself, with no
    response, exactly when the number of parts and the size of every part
    are within the configured bounds; in every other case it returns no
    message and the response Ack; it never returns an Error response. *)
Theorem BoundsCheck_ProcessMessage_contract (m : BoundsCheck) (msg : Message) :
  let r := (BoundsCheck_ProcessMessage m msg).2 in
  (r = ([msg], None) ↔ within_bounds (BoundsCheck_ (conf m)) msg)
  ∧ (¬ within_bounds (BoundsCheck_ (conf m)) msg → r = ([], Some Ack))
  ∧ (∀ e, r.2 ≠ Some (Error e)).
Proof.
  cbv zeta. split; [apply BoundsCheck_emits_iff | split].
  - intros Hout. destruct (BoundsCheck_outcomes m msg) as [H|H]; [|done].
    by apply BoundsCheck_emits_iff in H.
  - intros e. by destruct (BoundsCheck_outcomes m msg) as [-> | ->].
Qed.

Lemma BoundsCheck_ProcessMessage_contract_witness :
  let m := {| conf := {| Type_ := "bounds_check"; Combine_ := NewCombineConfig;
                         BoundsCheck_ := {| MaxParts := 2; MinParts := 1;
                                            MaxPartSize := 10; MinPartSize := 1 |} |};
              b_mCount := 0; b_mDropped := 0; b_mDroppedEmpty := 0;
              b_mDroppedNumParts := 0; b_mDroppedPartSize := 0;
              b_mSent := 0; b_mSentParts := 0 |} in
  (BoundsCheck_ProcessMessage m (New [B "a"; B "b"; B "c"])).2 = ([], Some Ack).
Proof.
  intros m.
  destruct (BoundsCheck_ProcessMessage_contract m (New [B "a"; B "b"; B "c"]))
    as (_ & Hdrop & _).
  apply Hdrop. intros [[_ Hmax] _]. vm_compute in Hmax. by apply Hmax.
Defined.

(** Scenario S3: with [max_parts = 2] the message [a b c] is dropped with
    an Ack and the counter of part-count drops becomes one. *)
Example BoundsCheck_drop_scenario :
  let m := {| conf := {| Type_ := "bounds_check"; Combine_ := NewCombineConfig;
                         BoundsCheck_ := {| MaxParts := 2; MinParts := 1;
                                            MaxPartSize := 10; MinPartSize := 1 |} |};
              b_mCount := 0; b_mDropped := 0; b_mDroppedEmpty := 0;
              b_mDroppedNumParts := 0; b_mDroppedPartSize := 0;
              b_mSent := 0; b_mSentParts := 0 |} in
  let r := BoundsCheck_ProcessMessage m (New [B "a"; B "b"; B "c"]) in
  r.2 = ([], Some Ack) ∧ b_mDroppedNumParts r.1 = 1.
Proof. by vm_compute. Qed.

(** ** The nanomsg output *)

Lemma NewNanomsg_not_started (lib : output.Mangos) (cf : output.Config)
    (s : output.Nanomsg) (err : option error) :
  output.NewNanomsg lib cf = (Some s, err) →
  output.transactions s = None ∧ output.running s = 1 ∧ err = None.
Proof.
  unfold output.NewNanomsg.
  destruct (output.getSocketFromType lib _) as [[sock|] [e|]]; try discriminate.
  destruct (output.SetOption lib sock _); try discriminate.
  destruct (if output.Bind _ then _ else _); try discriminate.
  intros H. injection H as <- <-. done.
Qed.

Lemma Consume_first (s : output.Nanomsg) (ts : TransactionChan) :
  output.transactions s = None →
  (output.Consume s ts).2 = None
  ∧ output.transactions (output.Consume s ts).1 = ts
  ∧ output.loops (output.Consume s ts).1 = S (output.loops s).
Proof. intros H. unfold output.Consume. by rewrite H. Qed.

Lemma Consume_started (s : output.Nanomsg) (ch : nat) (ts : TransactionChan) :
  output.transactions s = Some ch →
  output.Consume s ts = (s, Some ErrAlreadyStarted).
Proof. intros H. unfold output.Consume. by rewrite H. Qed.

Lemma CloseAsync_transactions (s : output.Nanomsg) :
  output.transactions (output.CloseAsync s) = output.transactions s.
Proof. unfold output.CloseAsync. by destruct (output.running s =? 1). Qed.

Lemma calls_cons (s : output.Nanomsg) (c : output.Call) (cs : list output.Call) :
  output.calls s (c :: cs)
  = ((output.calls (output.call s c).1 cs).1,
     (output.call s c).2 :: (output.calls (output.call s c).1 cs).2).
Proof.
  simpl. destruct (output.call s c) as [s1 e]. simpl.
  by destruct (output.calls s1 cs).
Qed.

(** Once an upstream is assigned, no run of calls replaces it, and every
    Consume of the run is answered with the already-started error. *)
Lemma calls_started (s : output.Nanomsg) (ch : nat) (cs : list output.Call) :
  output.transactions s = Some ch →
  output.transactions (output.calls s cs).1 = Some ch
  ∧ output.loops (output.calls s cs).1 = output.loops s
  ∧ ∀ (i : nat) (ts : TransactionChan),
      cs !! i = Some (output.CallConsume ts) →
      (output.calls s cs).2 !! i = Some (Some ErrAlreadyStarted).
Proof.
  revert s. induction cs as [|c cs IH]; intros s Hs.
  { simpl. repeat split; [done|]. intros i ts Hi. by destruct i. }
  rewrite calls_cons. simpl.
  destruct c as [ts0|]; simpl.
  - rewrite (Consume_started s ch) by done. simpl.
    destruct (IH s Hs) as (H1 & H2 & H3). repeat split; [done..|].
    intros [|i] ts Hi; simpl in *; [done | by eapply H3].
  - destruct (IH (output.CloseAsync s)) as (H1 & H2 & H3).
    { by rewrite CloseAsync_transactions. }
    repeat split; [done | |].
    + rewrite H2. unfold output.CloseAsync. by destruct (output.running s =? 1).
    + intros [|i] ts Hi; simpl in *; [done | by eapply H3].
Qed.

(** C9: on an output with no upstream yet, as [NewNanomsg] makes it, the
    first Consume returns no error and assigns the stream; from then on,
    in any run of calls, every Consume returns the already-started error,
    the assigned upstream stays the same, and no further loop is started;
    a Consume on an output with an upstream leaves the whole output as it
    was. *)
Theorem Nanomsg_Consume_once (s : output.Nanomsg) (ch : nat) :
  output.transactions s = None →
  let s1 := (output.Consume s (Some ch)).1 in
  (output.Consume s (Some ch)).2 = None
  ∧ output.transactions s1 = Some ch
  ∧ (∀ ts, output.Consume s1 ts = (s1, Some ErrAlreadyStarted))
  ∧ ∀ cs : list output.Call,
      output.transactions (output.calls s1 cs).1 = Some ch
      ∧ output.loops (output.calls s1 cs).1 = S (output.loops s)
      ∧ ∀ (i : nat) (ts : TransactionChan),
          cs !! i = Some (output.CallConsume ts) →
          (output.calls s1 cs).2 !! i = Some (Some ErrAlreadyStarted).
Proof.
  intros Hs. cbv zeta.
  destruct (Consume_first s (Some ch) Hs) as (He & Hts & Hloops).
  repeat split; try done.
  - intros ts. by apply (Consume_started _ ch).
  - by apply (calls_started _ ch).
  - rewrite <- Hloops. by apply (calls_started _ ch).
  - by apply (calls_started _ ch).
Qed.

Lemma Nanomsg_Consume_once_witness :
  let s := {| output.running := 1;
              output.urls := ["tcp://localhost:5556"%string];
              output.conf := {| output.Type_ := "nanomsg";
                                output.Nanomsg_ := output.NewNanomsgConfig |};
              output.socket := output.PushSocket;
              output.transactions := None;
              output.closeChan_closed := false;
              output.loops := 0 |} in
  let s1 := (output.Consume s (Some 7%nat)).1 in
  (output.Consume s (Some 7%nat)).2 = None
  ∧ output.transactions s1 = Some 7%nat
  ∧ (∀ ts, output.Consume s1 ts = (s1, Some ErrAlreadyStarted))
  ∧ ∀ cs : list output.Call,
      output.transactions (output.calls s1 cs).1 = Some 7%nat
      ∧ output.loops (output.calls s1 cs).1 = 1%nat
      ∧ ∀ (i : nat) (ts : TransactionChan),
          cs !! i = Some (output.CallConsume ts) →
          (output.calls s1 cs).2 !! i = Some (Some ErrAlreadyStarted).
Proof.
  intros s. apply (Nanomsg_Consume_once s 7%nat). reflexivity.
Defined.

(** The default configuration, on a library that answers every call
    without error, gives the output used above. *)
Example NewNanomsg_default :
  output.NewNanomsg
    {| output.push_NewSocket := None; output.pub_NewSocket := None;
       output.SetOption := λ _ _, None; output.Listen := λ _ _, None;
       output.Dial := λ _ _, None |}
    {| output.Type_ := "nanomsg"; output.Nanomsg_ := output.NewNanomsgConfig |}
  = (Some {| output.running := 1;
             output.urls := ["tcp://localhost:5556"%string];
             output.conf := {| output.Type_ := "nanomsg";
                               output.Nanomsg_ := output.NewNanomsgConfig |};
             output.socket := output.PushSocket;
             output.transactions := None;
             output.closeChan_closed := false;
             output.loops := 0 |},
     None).
Proof. reflexivity. Qed.

(** ** Function variables *)

(** The cases of the detector's test. *)
Example TestFunctionVarDetection :
  (λ s, ContainsFunctionVariables (B s)) <$>
    [ "foo ${!foo_bar} baz";
      "foo ${!foo_bar} baz ${!foo_baz}";
      "foo $!foo} baz $!but_not_this}";
      "foo ${!baz ${!or_this";
      "foo ${baz} ${or_this}";
      "nothing $ here boss {!}";
      "foo ${!foo_bar:arg1} baz";
      "foo ${!foo_bar:} baz";
      "foo ${!foo_bar:arg1} baz ${!foo_baz:arg2}";
      "foo $!foo:arg2} baz $!but_not_this:}";
      "nothing $ here boss {!:argnope}" ]%string
  = [true; true; false; false; false; false; true; false; true; false; false].
Proof. vm_compute. reflexivity. Qed.

Lemma strip_prefix_Some (p s r : bytes) :
  strip_prefix p s = Some r ↔ s = p ++ r.
Proof.
  revert s. induction p as [|a p IH]; intros s; simpl.
  - split; congruence.
  - destruct s as [|b s]; [done|].
    destruct (decide (a = b)) as [->|Hne].
    + rewrite IH. split; congruence.
    + split; [done | congruence].
Qed.

Lemma span_app (p : byte → bool) (s : bytes) :
  s = (span p s).1 ++ (span p s).2.
Proof.
  induction s as [|b s IH]; simpl; [done|].
  destruct (p b); [|done].
  destruct (span p s) as [taken remaining]. simpl in *. congruence.
Qed.

Lemma span_Forall (p : byte → bool) (s : bytes) :
  Forall (λ b, p b = true) (span p s).1.
Proof.
  induction s as [|b s IH]; simpl; [constructor|].
  destruct (p b) eqn:Hb; [|constructor].
  destruct (span p s) as [taken remaining]. simpl in *. by constructor.
Qed.

Lemma span_stop (p : byte → bool) (a : bytes) (b : byte) (rest : bytes) :
  Forall (λ b, p b = true) a → p b = false →
  span p (a ++ b :: rest) = (a, b :: rest).
Proof.
  intros Ha Hb. induction Ha as [|x a Hx Ha IH]; simpl.
  - by rewrite Hb.
  - by rewrite Hx, IH.
Qed.

Lemma is_name_byte_not_brace (b : byte) :
  is_name_byte b = true → b ≠ "}"%byte ∧ b ≠ ":"%byte.
Proof. destruct b; vm_compute; intros; split; congruence. Qed.

Lemma is_arg_byte_true (b : byte) : is_arg_byte b = true ↔ b ≠ "}"%byte.
Proof. unfold is_arg_byte. apply bool_decide_eq_true. Qed.

(** What the matcher accepts is the text of a well-formed reference. *)
Lemma match_reference_sound (s name : bytes) (arg : option bytes) (rest : bytes) :
  match_reference s = Some (name, arg, rest) →
  s = reference_text name arg ++ rest
  ∧ well_formed_name name ∧ well_formed_arg arg.
Proof.
  unfold match_reference.
  destruct (strip_prefix (B "${!") s) as [s1|] eqn:Hpre; [|done].
  apply strip_prefix_Some in Hpre.
  pose proof (span_app is_name_byte s1) as Happ.
  pose proof (span_Forall is_name_byte s1) as Hname.
  destruct (span is_name_byte s1) as [[|n0 nm] [|b s2]]; try done.
  simpl in Happ, Hname.
  destruct (decide (b = "}"%byte)) as [->|Hb].
  { intros H. injection H as <- <- <-. subst s s1.
    unfold reference_text. simpl. rewrite <- app_assoc. done. }
  destruct (decide (b = ":"%byte)) as [->|Hc]; [|done].
  pose proof (span_app is_arg_byte s2) as Happ2.
  pose proof (span_Forall is_arg_byte s2) as Harg.
  destruct (span is_arg_byte s2) as [[|a0 a] [|c rest']]; try done.
  destruct (decide (c = "}"%byte)) as [->|]; [|done].
  simpl in Happ2, Harg.
  intros H. injection H as <- <- <-. subst s s1 s2.
  unfold reference_text. simpl. repeat split; try done.
  - rewrite <- !app_assoc. simpl. by rewrite <- app_assoc.
  - eapply Forall_impl; [exact Harg|]. intros x. by rewrite is_arg_byte_true.
Qed.

(** The text of a well-formed reference is accepted, with whatever
    follows it left over. *)
Lemma match_reference_complete (name : bytes) (arg : option bytes) (post : bytes) :
  well_formed_name name → well_formed_arg arg →
  match_reference (reference_text name arg ++ post) = Some (name, arg, post).
Proof.
  intros [Hne Hname] Harg. unfold match_reference, reference_text.
  rewrite <- app_assoc.
  rewrite (proj2 (strip_prefix_Some (B "${!") _ _) eq_refl).
  destruct arg as [a|]; simpl in *.
  - destruct Harg as [Hane Ha].
    rewrite <- !app_assoc. simpl.
    rewrite (span_stop is_name_byte name ":"%byte) by done.
    destruct name as [|n0 nm]; [done|]. simpl.
    rewrite <- app_assoc. simpl.
    rewrite span_stop.
    + destruct a as [|a0 a]; [done|]. by rewrite decide_True.
    + eapply Forall_impl; [exact Ha|]. intros x. by rewrite is_arg_byte_true.
    + done.
  - rewrite <- app_assoc. change (B "}" ++ post) with ("}"%byte :: post).
    rewrite span_stop by done.
    destruct name as [|n0 nm]; [done|]. done.
Qed.

Lemma ContainsFunctionVariables_true (s : bytes) :
  ContainsFunctionVariables s = true ↔ has_function_reference s.
Proof.
  split.
  - induction s as [|b s IH]; simpl; [done|].
    destruct (match_reference (b :: s)) as [[[name arg] after]|] eqn:Hm.
    + intros _. apply match_reference_sound in Hm as (Hs & Hname & Harg).
      by exists [], name, arg, after.
    + intros H. destruct (IH H) as (pre & name & arg & post & -> & Hname & Harg).
      by exists (b :: pre), name, arg, post.
  - intros (pre & name & arg & post & -> & Hname & Harg).
    induction pre as [|b pre IH].
    + pose proof (match_reference_complete name arg post Hname Harg) as Hm.
      simpl in *. unfold reference_text in *. simpl in *. by rewrite Hm.
    + simpl. by destruct (match_reference _).
Qed.

(** C5: the detector answers [true] exactly on the buffers that contain a
    well-formed reference, that is the text [${!NAME}] or [${!NAME:ARG}]
    with NAME one or more bytes of [a-z_] and ARG one or more bytes other
    than the closing brace; a reference with an empty argument is not one. *)
Theorem ContainsFunctionVariables_correct :
  (∀ s : bytes, ContainsFunctionVariables s = true ↔ has_function_reference s)
  ∧ ¬ has_function_reference (B "${!foo_bar:}")
  ∧ ContainsFunctionVariables (B "foo ${!foo_bar:} baz") = false
  ∧ ContainsFunctionVariables (B "foo ${!foo_bar:arg1} baz") = true
  ∧ ContainsFunctionVariables (B "nothing $ here boss {!}") = false.
Proof.
  split; [apply ContainsFunctionVariables_true|].
  split; [|by vm_compute].
  rewrite <- ContainsFunctionVariables_true. by vm_compute.
Qed.

(** *** The rewriter *)

Lemma match_reference_shorter (s name : bytes) (arg : option bytes) (after : bytes) :
  match_reference s = Some (name, arg, after) → (length after < length s)%nat.
Proof.
  intros H. apply match_reference_sound in H as (-> & _ & _).
  unfold reference_text. rewrite !length_app. simpl. lia.
Qed.

Lemma replace_steps_enough (others : string → option (Message → string → bytes))
    (names_bs_ff : bool) (msg : Message) (fuel1 fuel2 : nat) (s : bytes) :
  (length s ≤ fuel1)%nat → (length s ≤ fuel2)%nat →
  replace_steps others names_bs_ff fuel1 msg s
  = replace_steps others names_bs_ff fuel2 msg s.
Proof.
  revert fuel2 s. induction fuel1 as [|fuel1 IH]; intros fuel2 s H1 H2.
  { destruct s; simpl in *; [by destruct fuel2 | lia]. }
  destruct s as [|b rest]; [by destruct fuel2|].
  destruct fuel2 as [|fuel2]; simpl in *; [lia|].
  destruct (match_reference (b :: rest)) as [[[name arg] after]|] eqn:Hm.
  - apply match_reference_shorter in Hm. simpl in Hm.
    f_equal. apply IH; lia.
  - f_equal. apply IH; lia.
Qed.

(** The equations of the rewriter. *)
Lemma ReplaceFunctionVariables_nil
    (others : string → option (Message → string → bytes)) (names_bs_ff : bool)
    (msg : Message) :
  ReplaceFunctionVariables others names_bs_ff msg [] = [].
Proof. done. Qed.

Lemma ReplaceFunctionVariables_reference
    (others : string → option (Message → string → bytes)) (names_bs_ff : bool)
    (msg : Message) (s name : bytes) (arg : option bytes) (after : bytes) :
  match_reference s = Some (name, arg, after) →
  ReplaceFunctionVariables others names_bs_ff msg s
  = expand others names_bs_ff msg name arg
    ++ ReplaceFunctionVariables others names_bs_ff msg after.
Proof.
  intros Hm. unfold ReplaceFunctionVariables.
  pose proof (match_reference_shorter _ _ _ _ Hm) as Hlen.
  destruct s as [|b rest]; [done|]. simpl length. cbn [replace_steps].
  rewrite Hm. f_equal. apply replace_steps_enough; simpl in *; lia.
Qed.

Lemma ReplaceFunctionVariables_literal
    (others : string → option (Message → string → bytes)) (names_bs_ff : bool)
    (msg : Message) (b : byte) (rest : bytes) :
  match_reference (b :: rest) = None →
  ReplaceFunctionVariables others names_bs_ff msg (b :: rest)
  = b :: ReplaceFunctionVariables others names_bs_ff msg rest.
Proof.
  intros Hm. unfold ReplaceFunctionVariables. simpl length. cbn [replace_steps].
  by rewrite Hm.
Qed.

(** Text in which no reference opens is copied when a dollar follows it,
    and what follows is rewritten as if it stood alone. *)
Lemma ReplaceFunctionVariables_prefix
    (others : string → option (Message → string → bytes)) (names_bs_ff : bool)
    (msg : Message) (pre s : bytes) :
  opens_reference pre = false →
  ReplaceFunctionVariables others names_bs_ff msg (pre ++ "$"%byte :: s)
  = pre ++ ReplaceFunctionVariables others names_bs_ff msg ("$"%byte :: s).
Proof.
  induction pre as [|b pre IH]; [done|].
  intros Hpre. cbn [opens_reference] in Hpre.
  destruct (strip_prefix (B "${!") (b :: pre)) as [?|] eqn:Hstrip; [done|].
  rewrite <- !app_comm_cons.
  rewrite ReplaceFunctionVariables_literal; [by rewrite IH|].
  unfold match_reference.
  assert (Hnone : strip_prefix (B "${!") (b :: pre ++ "$"%byte :: s) = None);
    [|by rewrite Hnone].
  clear IH Hpre. simpl in *.
  destruct (decide ("$"%byte = b)); [|done].
  destruct pre as [|c pre]; simpl in *; [done|].
  destruct (decide ("{"%byte = c)); [|done].
  destruct pre as [|d pre]; simpl in *; [done|].
  by destruct (decide ("!"%byte = d)).
Qed.

(** *** The order of the keys *)

#[local] Instance key_le_trans : Transitive key_le.
Proof. intros x y z. unfold key_le. apply transitivity. Qed.

#[local] Instance key_le_total : Total key_le.
Proof. intros x y. unfold key_le. apply total, _. Qed.

Lemma sorted_entries_sorted (md : gmap string string) :
  StronglySorted String.le (sorted_entries md).*1.
Proof.
  apply StronglySorted_fmap with (R1 := key_le); [done|].
  apply StronglySorted_merge_sort; apply _.
Qed.

Lemma sorted_entries_Permutation (md : gmap string string) :
  sorted_entries md ≡ₚ map_to_list md.
Proof. apply merge_sort_Permutation. Qed.

Lemma sorted_entries_lookup (md : gmap string string) (k v : string) :
  (k, v) ∈ sorted_entries md ↔ md !! k = Some v.
Proof.
  rewrite sorted_entries_Permutation. apply elem_of_map_to_list.
Qed.

Lemma sorted_entries_NoDup (md : gmap string string) :
  NoDup (sorted_entries md).*1.
Proof.
  rewrite sorted_entries_Permutation. apply NoDup_fst_map_to_list.
Qed.

(** *** The JSON text of a string *)

Lemma json_escape_ascii_plain (names_bs_ff : bool) (b : byte) :
  json_plain b → json_escape_ascii names_bs_ff b = [b].
Proof.
  intros [[Hlo Hhi] Hnot]. unfold json_escape_ascii.
  rewrite !not_elem_of_cons in Hnot. destruct Hnot as (H1 & H2 & H3 & H4 & H5 & _).
  rewrite (bool_decide_eq_false_2 (b = x22)) by done.
  rewrite (bool_decide_eq_false_2 (b = x5c)) by done.
  rewrite (bool_decide_eq_false_2 (b = x0a)) by (intros ->; vm_compute in Hlo; done).
  rewrite (bool_decide_eq_false_2 (b = x0d)) by (intros ->; vm_compute in Hlo; done).
  rewrite (bool_decide_eq_false_2 (b = x09)) by (intros ->; vm_compute in Hlo; done).
  rewrite (bool_decide_eq_false_2 (b = x08)) by (intros ->; vm_compute in Hlo; done).
  rewrite (bool_decide_eq_false_2 (b = x0c)) by (intros ->; vm_compute in Hlo; done).
  simpl andb.
  rewrite (bool_decide_eq_false_2 (b ∈ [x3c; x3e; x26]))
    by (rewrite !elem_of_cons, elem_of_nil; tauto).
  destruct (N.ltb_spec (Byte.to_N b) 32); [lia | done].
Qed.

Lemma json_escape_from_plain (names_bs_ff : bool) (s : bytes) :
  Forall json_plain s → json_escape_from names_bs_ff 0 s = s.
Proof.
  induction 1 as [|b s Hb Hs IH]; [done|]. simpl.
  assert (Hascii : byte_in 0 127 b = true).
  { destruct Hb as [[Hlo Hhi] _]. unfold byte_in.
    apply andb_true_intro. split; apply N.leb_le; lia. }
  by rewrite Hascii, json_escape_ascii_plain, IH.
Qed.

Lemma json_string_plain (names_bs_ff : bool) (s : string) :
  plain_string s →
  json_string names_bs_ff s = x22 :: list_byte_of_string s ++ [x22].
Proof.
  intros Hs. unfold json_string. by rewrite json_escape_from_plain.
Qed.

(** Reading back what the encoder writes for one ASCII byte gives the
    byte. *)
Lemma json_read_escape_ascii (names_bs_ff : bool) (b : byte) (more : bytes) :
  byte_in 0 127 b = true →
  json_read_from (json_escape_ascii names_bs_ff b ++ more)
  = read_more [b] (json_read_from more).
Proof.
  intros Hb. destruct b; vm_compute in Hb; try discriminate Hb;
    destruct names_bs_ff; reflexivity.
Qed.

Lemma json_read_high (b : byte) (more : bytes) :
  byte_in 0 127 b = false →
  json_read_from (b :: more) = read_more [b] (json_read_from more).
Proof.
  intros Hb. destruct b; vm_compute in Hb; try discriminate Hb; reflexivity.
Qed.

Lemma byte_in_high (b : byte) :
  byte_in 128 191 b = true → byte_in 0 127 b = false.
Proof.
  unfold byte_in. intros H. apply andb_prop in H as [H _].
  apply N.leb_le in H. apply andb_false_intro2. apply N.leb_gt. lia.
Qed.

Lemma json_read_escape_from (names_bs_ff : bool) (fuel : nat) :
  ∀ (s : bytes) (copy : nat) (after : bytes),
    (length s ≤ fuel)%nat →
    utf8_ok copy s = true →
    json_read_from (json_escape_from names_bs_ff copy s ++ x22 :: after)
    = Some (s, after).
Proof.
  induction fuel as [|fuel IH]; intros s copy after Hlen Hok.
  { destruct s; [done | simpl in Hlen; lia]. }
  destruct s as [|b rest]; [done|]. simpl in Hlen.
  destruct copy as [|copy].
  - cbn [json_escape_from]. cbn [utf8_ok] in Hok.
    destruct (byte_in 0 127 b) eqn:Hascii.
    { assert (Hrest : utf8_ok 0 rest = true).
      { unfold utf8_size in Hok. by rewrite Hascii in Hok. }
      rewrite <- app_assoc, json_read_escape_ascii by done.
      by rewrite IH by (done || lia). }
    assert (Hother :
      json_read_from
        (match utf8_size (b :: rest) with
         | Some size => b :: json_escape_from names_bs_ff (pred size) rest
         | None => B "\ufffd" ++ json_escape_from names_bs_ff 0 rest
         end ++ x22 :: after) = Some (b :: rest, after)).
    { destruct (utf8_size (b :: rest)) as [size|]; [|done].
      rewrite <- app_comm_cons, json_read_high by done.
      by rewrite IH by (done || lia). }
    destruct rest as [|b1 [|b2 rest3]]; try exact Hother.
    destruct (bool_decide (b = xe2 ∧ b1 = x80 ∧ (b2 = xa8 ∨ b2 = xa9)))
      eqn:Hsep; [|exact Hother].
    apply bool_decide_eq_true in Hsep as (-> & -> & Hb2).
    assert (Hrest : utf8_ok 0 rest3 = true).
    { destruct Hb2 as [-> | ->]; exact Hok. }
    simpl in Hlen.
    destruct Hb2 as [-> | ->].
    + change (read_more [xe2; x80; xa8]
                (json_read_from (json_escape_from names_bs_ff 0 rest3 ++ x22 :: after))
              = Some (xe2 :: x80 :: xa8 :: rest3, after)).
      by rewrite IH by (done || lia).
    + change (read_more [xe2; x80; xa9]
                (json_read_from (json_escape_from names_bs_ff 0 rest3 ++ x22 :: after))
              = Some (xe2 :: x80 :: xa9 :: rest3, after)).
      by rewrite IH by (done || lia).
  - cbn [json_escape_from]. cbn [utf8_ok] in Hok.
    apply andb_prop in Hok as [Hb Hrest].
    rewrite <- app_comm_cons, json_read_high by (by apply byte_in_high).
    by rewrite IH by (done || lia).
Qed.

(** Read back, the text of a string in UTF-8 is the string. *)
Lemma json_read_json_string (names_bs_ff : bool) (s : string) (after : bytes) :
  utf8_string s →
  json_read_string (json_string names_bs_ff s ++ after) = Some (s, after).
Proof.
  intros Hs. unfold json_string, json_read_string.
  rewrite <- app_comm_cons. rewrite bool_decide_eq_true_2 by done.
  rewrite <- app_assoc. simpl app.
  rewrite (json_read_escape_from names_bs_ff (length (list_byte_of_string s)))
    by done.
  by rewrite string_of_list_byte_of_string.
Qed.

(** *** The text of a string has no control byte and no <, > or & *)

Lemma json_safe_high (b : byte) : byte_in 0 127 b = false → json_safe b.
Proof.
  intros Hb. destruct b; vm_compute in Hb; try discriminate Hb;
    apply (bool_decide_unpack _); vm_compute; exact I.
Qed.

Lemma json_escape_ascii_safe (names_bs_ff : bool) (b : byte) :
  byte_in 0 127 b = true → Forall json_safe (json_escape_ascii names_bs_ff b).
Proof.
  intros Hb. destruct b; vm_compute in Hb; try discriminate Hb;
    destruct names_bs_ff; apply (bool_decide_unpack _); vm_compute; exact I.
Qed.

(** The bytes after the first of a well-formed sequence are not ASCII. *)
Lemma utf8_size_high (b : byte) (rest : bytes) (size : nat) :
  utf8_size (b :: rest) = Some size →
  Forall (λ b, byte_in 0 127 b = false) (take (pred size) rest).
Proof.
  unfold utf8_size.
  destruct (byte_in 0 127 b).
  { intros H. injection H as <-. constructor. }
  destruct (byte_in 194 223 b).
  { destruct rest as [|b1 rest]; [done|].
    destruct (byte_in 128 191 b1) eqn:H1; [|done].
    intros H. injection H as <-. simpl. rewrite take_0.
    repeat constructor. by apply byte_in_high. }
  destruct (byte_in 224 239 b).
  { destruct rest as [|b1 [|b2 rest]]; try done.
    destruct (byte_in _ _ b1) eqn:H1; [|done].
    destruct (byte_in 128 191 b2) eqn:H2; [|done].
    intros H. injection H as <-. simpl. rewrite take_0.
    repeat constructor; [|by apply byte_in_high].
    unfold byte_in in *. apply andb_prop in H1 as [H1 _].
    apply N.leb_le in H1. apply andb_false_intro2, N.leb_gt.
    destruct (decide (b = xe0)); lia. }
  destruct (byte_in 240 244 b); [|done].
  destruct rest as [|b1 [|b2 [|b3 rest]]]; try done.
  destruct (byte_in _ _ b1) eqn:H1; [|done].
  destruct (byte_in 128 191 b2) eqn:H2; [|done].
  destruct (byte_in 128 191 b3) eqn:H3; [|done].
  intros H. injection H as <-. simpl. rewrite take_0.
  repeat constructor; [|by apply byte_in_high..].
  unfold byte_in in *. apply andb_prop in H1 as [H1 _].
  apply N.leb_le in H1. apply andb_false_intro2, N.leb_gt.
  destruct (decide (b = xf0)); lia.
Qed.

Lemma json_escape_from_safe (names_bs_ff : bool) (fuel : nat) :
  ∀ (s : bytes) (copy : nat),
    (length s ≤ fuel)%nat →
    Forall (λ b, byte_in 0 127 b = false) (take copy s) →
    Forall json_safe (json_escape_from names_bs_ff copy s).
Proof.
  induction fuel as [|fuel IH]; intros s copy Hlen Hcopy.
  { destruct s; [constructor | simpl in Hlen; lia]. }
  destruct s as [|b rest]; [constructor|]. simpl in Hlen.
  destruct copy as [|copy].
  - cbn [json_escape_from].
    destruct (byte_in 0 127 b) eqn:Hascii.
    { apply Forall_app. split; [by apply json_escape_ascii_safe|].
      apply IH; [lia | constructor]. }
    assert (Hother :
      Forall json_safe
        match utf8_size (b :: rest) with
        | Some size => b :: json_escape_from names_bs_ff (pred size) rest
        | None => B "\ufffd" ++ json_escape_from names_bs_ff 0 rest
        end).
    { destruct (utf8_size (b :: rest)) as [size|] eqn:Hsize.
      - constructor; [by apply json_safe_high|].
        apply IH; [lia | by apply (utf8_size_high b)].
      - apply Forall_app. split.
        + apply (bool_decide_unpack _). vm_compute. exact I.
        + apply IH; [lia | constructor]. }
    destruct rest as [|b1 [|b2 rest3]]; try exact Hother.
    destruct (bool_decide (b = xe2 ∧ b1 = x80 ∧ (b2 = xa8 ∨ b2 = xa9)))
      eqn:Hsep; [|exact Hother].
    apply bool_decide_eq_true in Hsep as (-> & -> & Hb2).
    simpl in Hlen. apply Forall_app. split.
    + apply (bool_decide_unpack _). vm_compute. exact I.
    + constructor.
      * destruct Hb2 as [-> | ->]; apply (bool_decide_unpack _); vm_compute; exact I.
      * apply IH; [lia | constructor].
  - cbn [json_escape_from]. simpl in Hcopy.
    apply Forall_cons in Hcopy as [Hb Hcopy].
    constructor; [by apply json_safe_high|]. apply IH; [lia | done].
Qed.

Lemma json_string_safe (names_bs_ff : bool) (s : string) :
  Forall json_safe (json_string names_bs_ff s).
Proof.
  unfold json_string. constructor.
  { apply (bool_decide_unpack _). vm_compute. exact I. }
  apply Forall_app. split.
  - apply (json_escape_from_safe names_bs_ff (length (list_byte_of_string s)));
      [done | constructor].
  - repeat constructor; apply (bool_decide_unpack _); vm_compute; exact I.
Qed.

(** What the encoder does with the bytes it does not copy: the ASCII
    escapes, a byte that is not UTF-8, the two separators, and text in
    UTF-8 (here e with an acute accent, followed by the euro sign). *)
Example json_string_escapes :
  (λ s, json_string true (string_of_list_byte s)) <$>
    [ B "a<b>c&d"; [x22; x5c]; [x0a; x0d; x09]; [x08; x0c]; [x00; x1f; x7f];
      [xff]; [x61; xc3]; [xe2; x80; xa8; xe2; x80; xa9];
      [xc3; xa9; xe2; x82; xac]; [xc0; x80]; [xed; xa0; x80] ]
  = [ Q "'a\u003cb\u003ec\u0026d'"; [x22; x5c; x22; x5c; x5c; x22];
      Q "'\n\r\t'"; Q "'\b\f'"; x22 :: B "\u0000\u001f" ++ [x7f; x22];
      Q "'\ufffd'"; Q "'a\ufffd'"; Q "'\u2028\u2029'";
      [x22; xc3; xa9; xe2; x82; xac; x22]; Q "'\ufffd\ufffd'";
      Q "'\ufffd\ufffd\ufffd'" ]
  ∧ json_string false (string_of_list_byte [x08; x0c]) = Q "'\u0008\u000c'".
Proof. split; vm_compute; reflexivity. Qed.

(** The tests of the [metadata] function, of [echo], and of names that are
    not in the table. *)
Example TestMetadataFunction :
  let msg := SetMetadata (SetMetadata (New []) "foo" "bar") "baz" "qux" in
  (λ s, ReplaceFunctionVariables (λ _, None) true msg (B s)) <$>
    [ "foo ${!metadata:foo} baz";
      "foo ${!metadata:bar} baz";
      "foo ${!metadata:foo} baz ${!metadata:missing}";
      "${!metadata}";
      "foo ${!echo:bar} ${!echo:baz}";
      "foo ${!echo}";
      "foo ${!} baz";
      "foo ${!does_not_exist} baz" ]%string
  = [ B "foo bar baz";
      B "foo  baz";
      B "foo bar baz ";
      Q "{'baz':'qux','foo':'bar'}";
      B "foo bar baz";
      B "foo ";
      B "foo ${!} baz";
      B "foo ${!does_not_exist} baz" ].
Proof. vm_compute. reflexivity. Qed.

Lemma reference_text_metadata_key (key post : bytes) :
  B "${!metadata:" ++ key ++ B "}" ++ post
  = reference_text (B "metadata") (Some key) ++ post.
Proof.
  unfold reference_text.
  change (B "${!metadata:" ++ key ++ B "}" ++ post
          = B "${!metadata:" ++ (key ++ B "}") ++ post).
  by rewrite <- app_assoc.
Qed.

Lemma metadata_key_expansion
    (others : string → option (Message → string → bytes)) (names_bs_ff : bool)
    (msg : Message) (key : string) (post : bytes) :
  key ≠ ""%string →
  Forall (λ b, b ≠ "}"%byte) (list_byte_of_string key) →
  ReplaceFunctionVariables others names_bs_ff msg
    (B "${!metadata:" ++ list_byte_of_string key ++ B "}" ++ post)
  = list_byte_of_string (default ""%string (metadata msg !! key))
    ++ ReplaceFunctionVariables others names_bs_ff msg post.
Proof.
  intros Hkey Hbrace.
  assert (Hname : well_formed_name (B "metadata")).
  { split; [done|]. repeat constructor. }
  assert (Hk : list_byte_of_string key ≠ []).
  { intros Hnil. apply Hkey.
    rewrite <- (string_of_list_byte_of_string key). by rewrite Hnil. }
  pose proof (match_reference_complete (B "metadata")
                (Some (list_byte_of_string key)) post Hname (conj Hk Hbrace)) as Hm.
  rewrite reference_text_metadata_key.
  rewrite (ReplaceFunctionVariables_reference others names_bs_ff msg _ _ _ _ Hm).
  f_equal. unfold expand. simpl. unfold metadata_function.
  rewrite string_of_list_byte_of_string.
  by rewrite (proj2 (String.eqb_neq key "") Hkey).
Qed.

Lemma metadata_all_expansion
    (others : string → option (Message → string → bytes)) (names_bs_ff : bool)
    (msg : Message) (post : bytes) :
  ReplaceFunctionVariables others names_bs_ff msg (B "${!metadata}" ++ post)
  = json_object names_bs_ff (metadata msg)
    ++ ReplaceFunctionVariables others names_bs_ff msg post.
Proof.
  assert (Hname : well_formed_name (B "metadata")).
  { split; [done|]. repeat constructor. }
  pose proof (match_reference_complete (B "metadata") None post Hname I) as Hm.
  change (reference_text (B "metadata") None ++ post)
    with (B "${!metadata}" ++ post) in Hm.
  by rewrite (ReplaceFunctionVariables_reference others names_bs_ff msg _ _ _ _ Hm).
Qed.



(** ** Wrapping an input with pipelines *)

Lemma construct_all_ok (pipes built : list input.Pipeline) :
  input.construct_all (inl <$> pipes) built = inl (built ++ pipes).
Proof.
  revert built. induction pipes as [|pipe pipes IH]; intros built; simpl.
  - by rewrite app_nil_r.
  - rewrite IH. by rewrite <- app_assoc.
Qed.

(** With pipelines that construct, the composite produces on the channel
    of the last pipeline. *)
Lemma WrapWithPipelines_chan (i : input.Type_) (pipes : list input.Pipeline)
    (last : input.Pipeline) :
  ∃ w, input.WrapWithPipelines i (inl <$> (pipes ++ [last])) = (Some w, None, [])
       ∧ input.TransactionChan_of w = Some (input.ts last).
Proof.
  unfold input.WrapWithPipelines. rewrite construct_all_ok. simpl.
  eexists. split; [reflexivity|].
  revert i. induction pipes as [|pipe pipes IH]; intros i; simpl.
  - unfold input.Pipeline_Consume. by destruct (input.tsIn last).
  - apply IH.
Qed.

(** C8: wrapping an input with no pipeline constructor returns that very
    input, and no error. *)
Theorem WrapWithPipelines_zero (i : input.Type_) :
  input.WrapWithPipelines i [] = (Some i, None, []).
Proof. reflexivity. Qed.

(** The test of the wrapper with two pipelines: the second consumes the
    channel of the first, the first the channel of the input. *)
Example TestBasicWrapMultiPipelines :
  let mockIn := input.Plain 0 false in
  let mockPi1 := {| input.tsIn := None; input.ts := 1; input.pipe_closed := false |} in
  let mockPi2 := {| input.tsIn := None; input.ts := 2; input.pipe_closed := false |} in
  input.WrapWithPipelines mockIn [inr (ErrOther "nope")] = (None, Some (ErrOther "nope"), [])
  ∧ input.WrapWithPipelines mockIn [inl mockPi1; inl mockPi2]
    = (Some (input.WithPipeline
               (input.WithPipeline mockIn
                  {| input.tsIn := Some 0%nat; input.ts := 1; input.pipe_closed := false |})
               {| input.tsIn := Some 1%nat; input.ts := 2; input.pipe_closed := false |}),
       None, []).
Proof. split; reflexivity. Qed.

(** * Further properties of the code *)

Import drivers.

(** ** Combine *)

(** X1: a call of [Combine.ProcessMessage] returns either exactly one
    message and no response, or no message and the response SkipAck; it
    never acknowledges, never reports an error, and never returns several
    messages. *)
Theorem Combine_ProcessMessage_shape (c : Combine) (msg : Message) :
  (∃ out, (Combine_ProcessMessage c msg).2 = ([out], None))
  ∨ (Combine_ProcessMessage c msg).2 = ([], Some SkipAck).
Proof.
  destruct (Z_lt_le_dec (n c) (Len msg)) as [Hover|Hfit].
  { left. rewrite Combine_ProcessMessage_oversize by done. by eexists. }
  destruct (Z_lt_le_dec (Z.of_nat (length (c_parts c ++ GetAll msg))) (n c))
    as [Hlt|Hge].
  - right. by rewrite Combine_ProcessMessage_pending.
  - left. rewrite Combine_ProcessMessage_batch by done. by eexists.
Qed.

(** X2: whatever the messages, oversize ones included, and whatever the
    state at the start, no part is lost, made up or emitted twice: the
    parts emitted together with the parts pending at the end are, as a
    multiset, the parts pending at the start together with the parts
    received. *)
Theorem Combine_run_no_part_lost (c : Combine) (msgs : list Message) :
  concat (GetAll <$> (Combine_run c msgs).2) ++ c_parts (Combine_run c msgs).1
  ≡ₚ c_parts c ++ concat (GetAll <$> msgs).
Proof.
  revert c. induction msgs as [|msg rest IH]; intros c.
  { simpl. by rewrite app_nil_r. }
  rewrite Combine_run_cons. cbn [fst snd].
  rewrite fmap_app, concat_app, <- app_assoc.
  destruct (Z_lt_le_dec (n c) (Len msg)) as [Hover|Hfit].
  { rewrite Combine_ProcessMessage_oversize by done. simpl.
    rewrite app_nil_r, (IH (MkCombine _ _ _ _ _ _ _)). simpl.
    apply Permutation_app_swap_app. }
  destruct (Z_lt_le_dec (Z.of_nat (length (c_parts c ++ GetAll msg))) (n c))
    as [Hlt|Hge].
  - rewrite Combine_ProcessMessage_pending by done. simpl.
    rewrite (IH (MkCombine _ _ _ _ _ _ _)). simpl. by rewrite <- app_assoc.
  - rewrite Combine_ProcessMessage_batch by done. simpl.
    rewrite app_nil_r, (IH (MkCombine _ _ _ _ _ _ _)). simpl.
    by rewrite <- app_assoc.
Qed.

Lemma Combine_run_counters_from (c : Combine) (msgs : list Message) :
  let r := Combine_run c msgs in
  c_mCount r.1 = c_mCount c + Z.of_nat (length msgs)
  ∧ c_mSent r.1 = c_mSent c + Z.of_nat (length r.2)
  ∧ c_mDropped r.1 = c_mDropped c + (Z.of_nat (length msgs) - Z.of_nat (length r.2))
  ∧ c_mSentParts r.1
    = c_mSentParts c + Z.of_nat (length (concat (GetAll <$> r.2)))
  ∧ c_mWarnParts r.1
    = c_mWarnParts c + Z.of_nat (length (filter (λ m, n c < Len m) msgs))
  ∧ (length r.2 ≤ length msgs)%nat.
Proof.
  cbv zeta. revert c. induction msgs as [|msg rest IH]; intros c.
  { simpl. repeat split; lia. }
  rewrite Combine_run_cons. rewrite filter_cons.
  destruct (Z_lt_le_dec (n c) (Len msg)) as [Hover|Hfit].
  { rewrite Combine_ProcessMessage_oversize by done.
    rewrite decide_True by done. cbn [fst snd].
    destruct (IH (MkCombine (n c) (c_parts c) (c_mCount c + 1)
                    (c_mWarnParts c + 1) (c_mSent c + 1)
                    (c_mSentParts c + Len msg) (c_mDropped c)))
      as (H1 & H2 & H3 & H4 & H5 & H6).
    cbn [n c_parts c_mCount c_mWarnParts c_mSent c_mSentParts c_mDropped] in *.
    rewrite H1, H2, H3, H4, H5. csimpl. rewrite length_app.
    change (Len msg) with (Z.of_nat (length (GetAll msg))) in *.
    repeat split; lia. }
  rewrite decide_False by lia.
  destruct (Z_lt_le_dec (Z.of_nat (length (c_parts c ++ GetAll msg))) (n c))
    as [Hlt|Hge].
  - rewrite Combine_ProcessMessage_pending by done. cbn [fst snd].
    destruct (IH (MkCombine (n c) (c_parts c ++ GetAll msg) (c_mCount c + 1)
                    (c_mWarnParts c) (c_mSent c) (c_mSentParts c)
                    (c_mDropped c + 1)))
      as (H1 & H2 & H3 & H4 & H5 & H6).
    cbn [n c_parts c_mCount c_mWarnParts c_mSent c_mSentParts c_mDropped] in *.
    rewrite H1, H2, H3, H4, H5. csimpl. repeat split; lia.
  - rewrite Combine_ProcessMessage_batch by done. cbn [fst snd].
    destruct (IH (MkCombine (n c) [] (c_mCount c + 1) (c_mWarnParts c)
                    (c_mSent c + 1)
                    (c_mSentParts c + Z.of_nat (length (c_parts c ++ GetAll msg)))
                    (c_mDropped c)))
      as (H1 & H2 & H3 & H4 & H5 & H6).
    cbn [n c_parts c_mCount c_mWarnParts c_mSent c_mSentParts c_mDropped] in *.
    rewrite H1, H2, H3, H4, H5. csimpl. rewrite !length_app in *.
    repeat split; lia.
Qed.

(** X3: the counters of a new Combine after any run.  [count] is the
    number of messages received; [sent] the number of messages emitted;
    [dropped] the number of calls that emitted nothing, so that
    [count = sent + dropped]; [parts.sent] the number of parts emitted;
    [warning.too_many_parts] the number of oversize messages. *)
Theorem Combine_counters (cf : Config) (c : Combine) (msgs : list Message) :
  (NewCombine cf).1 = Some c →
  let r := Combine_run c msgs in
  c_mCount r.1 = Z.of_nat (length msgs)
  ∧ c_mSent r.1 = Z.of_nat (length r.2)
  ∧ c_mCount r.1 = c_mSent r.1 + c_mDropped r.1
  ∧ 0 ≤ c_mDropped r.1
  ∧ c_mSentParts r.1 = Z.of_nat (length (concat (GetAll <$> r.2)))
  ∧ c_mWarnParts r.1
    = Z.of_nat (length (filter (λ m, Parts (Combine_ cf) < Len m) msgs)).
Proof.
  intros Hnew. simpl in Hnew. injection Hnew as <-. cbv zeta.
  destruct (Combine_run_counters_from
              (MkCombine (Parts (Combine_ cf)) [] 0 0 0 0 0) msgs)
    as (H1 & H2 & H3 & H4 & H5 & H6).
  cbn [n c_parts c_mCount c_mWarnParts c_mSent c_mSentParts c_mDropped] in *.
  rewrite H1, H2, H3, H4, H5. repeat split; lia.
Qed.

Lemma Combine_counters_witness :
  let cf := {| Type_ := "combine"; Combine_ := {| Parts := 2 |};
               BoundsCheck_ := NewBoundsCheckConfig |} in
  let c := {| n := 2; c_parts := []; c_mCount := 0; c_mWarnParts := 0;
              c_mSent := 0; c_mSentParts := 0; c_mDropped := 0 |} in
  let msgs := [New [B "a"]; New [B "x"; B "y"; B "z"]; New [B "b"]] in
  let r := Combine_run c msgs in
  c_mCount r.1 = Z.of_nat (length msgs)
  ∧ c_mSent r.1 = Z.of_nat (length r.2)
  ∧ c_mCount r.1 = c_mSent r.1 + c_mDropped r.1
  ∧ 0 ≤ c_mDropped r.1
  ∧ c_mSentParts r.1 = Z.of_nat (length (concat (GetAll <$> r.2)))
  ∧ c_mWarnParts r.1
    = Z.of_nat (length (filter (λ m, Parts (Combine_ cf) < Len m) msgs)).
Proof.
  intros cf c msgs. apply (Combine_counters cf c msgs). reflexivity.
Defined.

Lemma Combine_run_single_parts (c : Combine) (msgs : list Message) :
  Z.of_nat (length (c_parts c)) < n c →
  Forall (λ m, Len m = 1) msgs →
  let r := Combine_run c msgs in
  let total := Z.of_nat (length (c_parts c)) + Z.of_nat (length msgs) in
  Forall (λ out, Len out = n c) r.2
  ∧ Z.of_nat (length r.2) = total / n c
  ∧ Z.of_nat (length (c_parts r.1)) = total mod n c.
Proof.
  cbv zeta. revert c. induction msgs as [|msg rest IH]; intros c Hbuf Hall.
  { simpl. rewrite Z.add_0_r, Z.div_small, Z.mod_small by lia. by repeat split. }
  apply Forall_cons in Hall as [Hone Hall].
  rewrite Combine_run_cons.
  assert (Hlen : Z.of_nat (length (c_parts c ++ GetAll msg))
                 = Z.of_nat (length (c_parts c)) + 1).
  { rewrite length_app. unfold Len, GetAll in *. lia. }
  destruct (Z_lt_le_dec (Z.of_nat (length (c_parts c ++ GetAll msg))) (n c))
    as [Hlt|Hge].
  - rewrite Combine_ProcessMessage_pending by lia. cbn [fst snd].
    destruct (IH (MkCombine (n c) (c_parts c ++ GetAll msg) (c_mCount c + 1)
                    (c_mWarnParts c) (c_mSent c) (c_mSentParts c)
                    (c_mDropped c + 1)) Hlt Hall) as (H1 & H2 & H3).
    cbn [n c_parts] in *. rewrite Hlen in H2, H3.
    replace (Z.of_nat (length (c_parts c)) + Z.of_nat (length (msg :: rest)))
      with (Z.of_nat (length (c_parts c)) + 1 + Z.of_nat (length rest))
      by (simpl; lia).
    by repeat split.
  - rewrite Combine_ProcessMessage_batch by lia. cbn [fst snd].
    destruct (IH (MkCombine (n c) [] (c_mCount c + 1) (c_mWarnParts c)
                    (c_mSent c + 1)
                    (c_mSentParts c + Z.of_nat (length (c_parts c ++ GetAll msg)))
                    (c_mDropped c)) ltac:(simpl; lia) Hall) as (H1 & H2 & H3).
    cbn [n c_parts] in *.
    replace (Z.of_nat (length (c_parts c)) + Z.of_nat (length (msg :: rest)))
      with (Z.of_nat (length rest) + 1 * n c) by (simpl; lia).
    rewrite Z.div_add, Z.mod_add by lia.
    cbn [length] in H2, H3. rewrite Z.add_0_l in H2, H3. repeat split.
    + constructor; [|done]. unfold Len. simpl. lia.
    + rewrite length_app. cbn [length]. lia.
    + done.
Qed.

(** X4: when every message has exactly one part and the threshold [P] is
    at least one, a new Combine emits batches of exactly [P] parts: after
    [k] messages it has emitted [k / P] batches and holds [k mod P] parts. *)
Theorem Combine_single_part_batches (cf : Config) (c : Combine)
    (msgs : list Message) :
  (NewCombine cf).1 = Some c →
  1 ≤ Parts (Combine_ cf) →
  Forall (λ m, Len m = 1) msgs →
  let P := Parts (Combine_ cf) in
  let r := Combine_run c msgs in
  Forall (λ out, Len out = P) r.2
  ∧ Z.of_nat (length r.2) = Z.of_nat (length msgs) / P
  ∧ Z.of_nat (length (c_parts r.1)) = Z.of_nat (length msgs) mod P.
Proof.
  intros Hnew HP Hall. simpl in Hnew. injection Hnew as <-. cbv zeta.
  apply (Combine_run_single_parts
           (MkCombine (Parts (Combine_ cf)) [] 0 0 0 0 0) msgs); [simpl; lia | done].
Qed.

Lemma Combine_single_part_batches_witness :
  let cf := {| Type_ := "combine"; Combine_ := {| Parts := 2 |};
               BoundsCheck_ := NewBoundsCheckConfig |} in
  let c := {| n := 2; c_parts := []; c_mCount := 0; c_mWarnParts := 0;
              c_mSent := 0; c_mSentParts := 0; c_mDropped := 0 |} in
  let msgs := [New [B "a"]; New [B "b"]; New [B "c"]] in
  let r := Combine_run c msgs in
  Forall (λ out, Len out = 2) r.2
  ∧ Z.of_nat (length r.2) = Z.of_nat (length msgs) / 2
  ∧ Z.of_nat (length (c_parts r.1)) = Z.of_nat (length msgs) mod 2.
Proof.
  intros cf c msgs. apply (Combine_single_part_batches cf c msgs).
  - reflexivity.
  - vm_compute. discriminate.
  - repeat constructor.
Defined.

(** X5: with a threshold of at least one, the buffer of a new Combine
    holds fewer parts than the threshold after every run, whatever the
    messages (oversize ones included): a full buffer is never kept. *)
Theorem Combine_buffer_stays_below (cf : Config) (c : Combine)
    (msgs : list Message) :
  (NewCombine cf).1 = Some c →
  1 ≤ Parts (Combine_ cf) →
  Z.of_nat (length (c_parts (Combine_run c msgs).1)) < Parts (Combine_ cf)
  ∧ n (Combine_run c msgs).1 = Parts (Combine_ cf).
Proof.
  intros Hnew HP. simpl in Hnew. injection Hnew as <-.
  apply (Combine_run_buffer_below
           (MkCombine (Parts (Combine_ cf)) [] 0 0 0 0 0) msgs). simpl. lia.
Qed.

Lemma Combine_buffer_stays_below_witness :
  let cf := {| Type_ := "combine"; Combine_ := {| Parts := 3 |};
               BoundsCheck_ := NewBoundsCheckConfig |} in
  let c := {| n := 3; c_parts := []; c_mCount := 0; c_mWarnParts := 0;
              c_mSent := 0; c_mSentParts := 0; c_mDropped := 0 |} in
  let msgs := [New [B "a"; B "b"]; New [B "w"; B "x"; B "y"; B "z"]; New [B "c"]] in
  Z.of_nat (length (c_parts (Combine_run c msgs).1)) < 3
  ∧ n (Combine_run c msgs).1 = 3.
Proof.
  intros cf c msgs. apply (Combine_buffer_stays_below cf c msgs).
  - reflexivity.
  - vm_compute. discriminate.
Defined.

(** X6: a threshold of at most one (the constructor accepts zero and
    negative thresholds) batches nothing.  From an empty buffer, the run
    returns, unchanged and in order, the messages that have at least
    [parts] parts: every message when the threshold is zero or negative,
    every message but the part-less ones when it is one; the buffer stays
    empty. *)
Theorem Combine_low_threshold (c : Combine) (msgs : list Message) :
  c_parts c = [] →
  n c ≤ 1 →
  (Combine_run c msgs).2 = filter (λ m, n c ≤ Len m) msgs
  ∧ c_parts (Combine_run c msgs).1 = [].
Proof.
  revert c. induction msgs as [|msg rest IH]; intros c Hbuf Hn; [done|].
  rewrite Combine_run_cons, filter_cons. cbn [fst snd].
  assert (Hpos : 0 ≤ Len msg) by (unfold Len; lia).
  destruct (Z_lt_le_dec (n c) (Len msg)) as [Hover|Hfit].
  { rewrite Combine_ProcessMessage_oversize by done. cbn [fst snd].
    rewrite decide_True by lia.
    destruct (IH (MkCombine (n c) (c_parts c) (c_mCount c + 1)
                    (c_mWarnParts c + 1) (c_mSent c + 1)
                    (c_mSentParts c + Len msg) (c_mDropped c)) Hbuf Hn)
      as [-> ->]. done. }
  assert (Hlen : Z.of_nat (length (c_parts c ++ GetAll msg)) = Len msg).
  { by rewrite Hbuf. }
  destruct (Z_lt_le_dec (Z.of_nat (length (c_parts c ++ GetAll msg))) (n c))
    as [Hlt|Hge].
  - rewrite Combine_ProcessMessage_pending by done. cbn [fst snd].
    rewrite decide_False by lia.
    assert (Hnil : c_parts c ++ GetAll msg = []).
    { apply length_zero_iff_nil. lia. }
    destruct (IH (MkCombine (n c) (c_parts c ++ GetAll msg) (c_mCount c + 1)
                    (c_mWarnParts c) (c_mSent c) (c_mSentParts c)
                    (c_mDropped c + 1)) Hnil Hn) as [-> ->]. done.
  - rewrite Combine_ProcessMessage_batch by done. cbn [fst snd].
    rewrite decide_True by lia.
    destruct (IH (MkCombine (n c) [] (c_mCount c + 1) (c_mWarnParts c)
                    (c_mSent c + 1)
                    (c_mSentParts c + Z.of_nat (length (c_parts c ++ GetAll msg)))
                    (c_mDropped c)) eq_refl Hn) as [-> ->].
    rewrite Hbuf. split; [|done]. simpl. f_equal. by destruct msg.
Qed.

Lemma Combine_low_threshold_witness :
  let c := {| n := 0; c_parts := []; c_mCount := 0; c_mWarnParts := 0;
              c_mSent := 0; c_mSentParts := 0; c_mDropped := 0 |} in
  let msgs := [New [B "a"]; New []; New [B "b"; B "c"]] in
  (Combine_run c msgs).2 = filter (λ m, 0 ≤ Len m) msgs
  ∧ c_parts (Combine_run c msgs).1 = [].
Proof.
  intros c msgs. apply (Combine_low_threshold c msgs).
  - reflexivity.
  - vm_compute. discriminate.
Defined.

(** ** BoundsCheck *)

Lemma BoundsCheck_run_cons (m : BoundsCheck) (msg : Message) (rest : list Message) :
  BoundsCheck_run m (msg :: rest)
  = ((BoundsCheck_run (BoundsCheck_ProcessMessage m msg).1 rest).1,
     (BoundsCheck_ProcessMessage m msg).2.1
       ++ (BoundsCheck_run (BoundsCheck_ProcessMessage m msg).1 rest).2).
Proof.
  simpl. destruct (BoundsCheck_ProcessMessage m msg) as [m1 [outs res]].
  simpl. by destruct (BoundsCheck_run m1 rest).
Qed.

(** The four branches of [BoundsCheck_ProcessMessage], each by its guard. *)
Lemma BoundsCheck_ProcessMessage_too_few (m : BoundsCheck) (msg : Message) :
  Len msg < MinParts (BoundsCheck_ (conf m)) →
  BoundsCheck_ProcessMessage m msg
  = ({| conf := conf m; b_mCount := b_mCount m + 1;
        b_mDropped := b_mDropped m + 1;
        b_mDroppedEmpty := b_mDroppedEmpty m + 1;
        b_mDroppedNumParts := b_mDroppedNumParts m;
        b_mDroppedPartSize := b_mDroppedPartSize m;
        b_mSent := b_mSent m; b_mSentParts := b_mSentParts m |},
     ([], Some Ack)).
Proof.
  intros H. unfold BoundsCheck_ProcessMessage.
  destruct (Z.ltb_spec (Len msg) (MinParts (BoundsCheck_ (conf m)))); [done | lia].
Qed.

Lemma BoundsCheck_ProcessMessage_too_many (m : BoundsCheck) (msg : Message) :
  MinParts (BoundsCheck_ (conf m)) ≤ Len msg →
  MaxParts (BoundsCheck_ (conf m)) < Len msg →
  BoundsCheck_ProcessMessage m msg
  = ({| conf := conf m; b_mCount := b_mCount m + 1;
        b_mDropped := b_mDropped m + 1;
        b_mDroppedEmpty := b_mDroppedEmpty m;
        b_mDroppedNumParts := b_mDroppedNumParts m + 1;
        b_mDroppedPartSize := b_mDroppedPartSize m;
        b_mSent := b_mSent m; b_mSentParts := b_mSentParts m |},
     ([], Some Ack)).
Proof.
  intros H1 H2. unfold BoundsCheck_ProcessMessage.
  destruct (Z.ltb_spec (Len msg) (MinParts (BoundsCheck_ (conf m)))); [lia|].
  destruct (Z.gtb_spec (Len msg) (MaxParts (BoundsCheck_ (conf m)))); [done | lia].
Qed.

Lemma BoundsCheck_ProcessMessage_part_size (m : BoundsCheck) (msg : Message) :
  MinParts (BoundsCheck_ (conf m)) ≤ Len msg ≤ MaxParts (BoundsCheck_ (conf m)) →
  ¬ within_bounds (BoundsCheck_ (conf m)) msg →
  BoundsCheck_ProcessMessage m msg
  = ({| conf := conf m; b_mCount := b_mCount m + 1;
        b_mDropped := b_mDropped m + 1;
        b_mDroppedEmpty := b_mDroppedEmpty m;
        b_mDroppedNumParts := b_mDroppedNumParts m;
        b_mDroppedPartSize := b_mDroppedPartSize m + 1;
        b_mSent := b_mSent m; b_mSentParts := b_mSentParts m |},
     ([], Some Ack)).
Proof.
  intros H1 H2. unfold BoundsCheck_ProcessMessage.
  destruct (Z.ltb_spec (Len msg) (MinParts (BoundsCheck_ (conf m)))); [lia|].
  destruct (Z.gtb_spec (Len msg) (MaxParts (BoundsCheck_ (conf m)))); [lia|].
  destruct (part_size_rejected _ _) eqn:Hrej; [done|].
  exfalso. apply H2. split; [done|]. by apply part_size_rejected_false.
Qed.

Lemma BoundsCheck_ProcessMessage_within (m : BoundsCheck) (msg : Message) :
  within_bounds (BoundsCheck_ (conf m)) msg →
  BoundsCheck_ProcessMessage m msg
  = ({| conf := conf m; b_mCount := b_mCount m + 1;
        b_mDropped := b_mDropped m;
        b_mDroppedEmpty := b_mDroppedEmpty m;
        b_mDroppedNumParts := b_mDroppedNumParts m;
        b_mDroppedPartSize := b_mDroppedPartSize m;
        b_mSent := b_mSent m + 1; b_mSentParts := b_mSentParts m + Len msg |},
     ([msg], None)).
Proof.
  intros [H1 H2]. unfold BoundsCheck_ProcessMessage.
  destruct (Z.ltb_spec (Len msg) (MinParts (BoundsCheck_ (conf m)))); [lia|].
  destruct (Z.gtb_spec (Len msg) (MaxParts (BoundsCheck_ (conf m)))); [lia|].
  apply part_size_rejected_false in H2. by rewrite H2.
Qed.

(** The four cases are exhaustive. *)
Lemma BoundsCheck_cases (bc : BoundsCheckConfig) (msg : Message) :
  Len msg < MinParts bc
  ∨ (MinParts bc ≤ Len msg ∧ MaxParts bc < Len msg)
  ∨ (MinParts bc ≤ Len msg ≤ MaxParts bc ∧ ¬ within_bounds bc msg)
  ∨ within_bounds bc msg.
Proof.
  destruct (Z_lt_le_dec (Len msg) (MinParts bc)); [by left|].
  destruct (Z_lt_le_dec (MaxParts bc) (Len msg)); [right; by left|].
  destruct (decide (within_bounds bc msg)); [by repeat right|].
  right; right; left. split; [lia | done].
Qed.

Lemma BoundsCheck_ProcessMessage_conf (m : BoundsCheck) (msg : Message) :
  conf (BoundsCheck_ProcessMessage m msg).1 = conf m.
Proof.
  destruct (BoundsCheck_cases (BoundsCheck_ (conf m)) msg)
    as [H|[[H1 H2]|[[H1 H2]|H]]].
  - by rewrite BoundsCheck_ProcessMessage_too_few.
  - by rewrite BoundsCheck_ProcessMessage_too_many.
  - by rewrite BoundsCheck_ProcessMessage_part_size.
  - by rewrite BoundsCheck_ProcessMessage_within.
Qed.

Lemma BoundsCheck_run_spec (m : BoundsCheck) (msgs : list Message) :
  (BoundsCheck_run m msgs).2 = filter (within_bounds (BoundsCheck_ (conf m))) msgs
  ∧ conf (BoundsCheck_run m msgs).1 = conf m.
Proof.
  revert m. induction msgs as [|msg rest IH]; intros m; [done|].
  rewrite BoundsCheck_run_cons, filter_cons. cbn [fst snd].
  destruct (IH (BoundsCheck_ProcessMessage m msg).1) as [-> ->].
  rewrite BoundsCheck_ProcessMessage_conf. split; [|done].
  destruct (decide (within_bounds (BoundsCheck_ (conf m)) msg)) as [Hin|Hout].
  - by rewrite BoundsCheck_ProcessMessage_within.
  - destruct (BoundsCheck_outcomes m msg) as [H|H].
    + by apply BoundsCheck_emits_iff in H.
    + by rewrite H.
Qed.

(** X7: over a run, BoundsCheck is a filter: the messages emitted are
    exactly the messages received that are within the four bounds, each
    unchanged, in the order received; the configuration is never changed. *)
Theorem BoundsCheck_run_filter (m : BoundsCheck) (msgs : list Message) :
  (BoundsCheck_run m msgs).2 = filter (within_bounds (BoundsCheck_ (conf m))) msgs
  ∧ conf (BoundsCheck_run m msgs).1 = conf m.
Proof. apply BoundsCheck_run_spec. Qed.

Lemma BoundsCheck_run_counters_from (m : BoundsCheck) (msgs : list Message) :
  let bc := BoundsCheck_ (conf m) in
  let r := BoundsCheck_run m msgs in
  b_mCount r.1 = b_mCount m + Z.of_nat (length msgs)
  ∧ b_mSent r.1 = b_mSent m + Z.of_nat (length r.2)
  ∧ b_mSentParts r.1
    = b_mSentParts m + Z.of_nat (length (concat (GetAll <$> r.2)))
  ∧ b_mDropped r.1
    = b_mDropped m + (Z.of_nat (length msgs) - Z.of_nat (length r.2))
  ∧ b_mDroppedEmpty r.1
    = b_mDroppedEmpty m
      + Z.of_nat (length (filter (λ x, Len x < MinParts bc) msgs))
  ∧ b_mDroppedNumParts r.1
    = b_mDroppedNumParts m
      + Z.of_nat (length (filter (λ x, MinParts bc ≤ Len x ∧ MaxParts bc < Len x)
                            msgs))
  ∧ b_mDroppedPartSize r.1
    = b_mDroppedPartSize m
      + Z.of_nat (length (filter (λ x, MinParts bc ≤ Len x ≤ MaxParts bc
                                       ∧ ¬ within_bounds bc x) msgs))
  ∧ b_mDropped r.1 - b_mDropped m
    = (b_mDroppedEmpty r.1 - b_mDroppedEmpty m)
      + (b_mDroppedNumParts r.1 - b_mDroppedNumParts m)
      + (b_mDroppedPartSize r.1 - b_mDroppedPartSize m).
Proof.
  cbv zeta. revert m. induction msgs as [|msg rest IH]; intros m.
  { simpl. repeat split; lia. }
  rewrite BoundsCheck_run_cons, !filter_cons. cbn [fst snd].
  pose proof (IH (BoundsCheck_ProcessMessage m msg).1) as IH'.
  rewrite BoundsCheck_ProcessMessage_conf in IH'.
  destruct IH' as (H1 & H2 & H3 & H4 & H5 & H6 & H7 & H8).
  rewrite H1, H2, H3, H4, H5, H6, H7.
  destruct (BoundsCheck_cases (BoundsCheck_ (conf m)) msg)
    as [H|[[Ha Hb]|[[Ha Hb]|H]]].
  - rewrite BoundsCheck_ProcessMessage_too_few in * by done.
    rewrite decide_True by done.
    rewrite !decide_False by (unfold within_bounds; intuition lia).
    csimpl in *. repeat split; lia.
  - rewrite BoundsCheck_ProcessMessage_too_many in * by done.
    rewrite decide_False by lia.
    rewrite decide_True by done.
    rewrite decide_False by (intuition lia).
    csimpl in *. repeat split; lia.
  - rewrite BoundsCheck_ProcessMessage_part_size in * by done.
    rewrite decide_False by lia.
    rewrite decide_False by (intuition lia).
    rewrite decide_True by done.
    csimpl in *. repeat split; lia.
  - rewrite BoundsCheck_ProcessMessage_within in * by done.
    destruct H as [Hp Hs].
    rewrite decide_False by lia.
    rewrite decide_False by (intuition lia).
    rewrite decide_False by (unfold within_bounds; intuition).
    csimpl in *. rewrite length_app.
    change (Len msg) with (Z.of_nat (length (GetAll msg))) in *.
    repeat split; lia.
Qed.

(** X8: the counters of a new BoundsCheck after any run.  [count] is the
    number of messages received and [sent] the number emitted, with
    [count = sent + dropped]; every drop is counted under exactly one
    reason, [dropped = dropped_empty + dropped_num_parts +
    dropped_part_size]; [parts.sent] is the number of parts emitted. *)
Theorem BoundsCheck_counters (cf : Config) (m : BoundsCheck)
    (msgs : list Message) :
  (NewBoundsCheck cf).1 = Some m →
  let r := BoundsCheck_run m msgs in
  b_mCount r.1 = Z.of_nat (length msgs)
  ∧ b_mSent r.1 = Z.of_nat (length r.2)
  ∧ b_mCount r.1 = b_mSent r.1 + b_mDropped r.1
  ∧ b_mDropped r.1
    = b_mDroppedEmpty r.1 + b_mDroppedNumParts r.1 + b_mDroppedPartSize r.1
  ∧ b_mSentParts r.1 = Z.of_nat (length (concat (GetAll <$> r.2))).
Proof.
  intros Hnew. simpl in Hnew. injection Hnew as <-. cbv zeta.
  destruct (BoundsCheck_run_counters_from (MkBoundsCheck cf 0 0 0 0 0 0 0) msgs)
    as (H1 & H2 & H3 & H4 & H5 & H6 & H7 & H8).
  cbn [conf b_mCount b_mDropped b_mDroppedEmpty b_mDroppedNumParts
       b_mDroppedPartSize b_mSent b_mSentParts] in *.
  repeat split; lia.
Qed.

Lemma BoundsCheck_counters_witness :
  let cf := {| Type_ := "bounds_check"; Combine_ := NewCombineConfig;
               BoundsCheck_ := {| MaxParts := 2; MinParts := 1;
                                  MaxPartSize := 10; MinPartSize := 1 |} |} in
  let m := MkBoundsCheck cf 0 0 0 0 0 0 0 in
  let msgs := [New [B "a"]; New []; New [B "a"; B "b"; B "c"]; New [B ""]] in
  let r := BoundsCheck_run m msgs in
  b_mCount r.1 = Z.of_nat (length msgs)
  ∧ b_mSent r.1 = Z.of_nat (length r.2)
  ∧ b_mCount r.1 = b_mSent r.1 + b_mDropped r.1
  ∧ b_mDropped r.1
    = b_mDroppedEmpty r.1 + b_mDroppedNumParts r.1 + b_mDroppedPartSize r.1
  ∧ b_mSentParts r.1 = Z.of_nat (length (concat (GetAll <$> r.2))).
Proof.
  intros cf m msgs. apply (BoundsCheck_counters cf m msgs). reflexivity.
Defined.

(** X9: the reason counted for a drop follows the order of the checks.
    After any run of a new BoundsCheck, [dropped_empty] is the number of
    messages with fewer parts than [min_parts]; [dropped_num_parts] the
    number of messages with at least [min_parts] and more than [max_parts]
    parts; [dropped_part_size] the number of messages whose part count is
    within bounds and one of whose parts is not. *)
Theorem BoundsCheck_drop_reasons (cf : Config) (m : BoundsCheck)
    (msgs : list Message) :
  (NewBoundsCheck cf).1 = Some m →
  let bc := BoundsCheck_ cf in
  let r := BoundsCheck_run m msgs in
  b_mDroppedEmpty r.1
  = Z.of_nat (length (filter (λ x, Len x < MinParts bc) msgs))
  ∧ b_mDroppedNumParts r.1
    = Z.of_nat (length (filter (λ x, MinParts bc ≤ Len x ∧ MaxParts bc < Len x)
                          msgs))
  ∧ b_mDroppedPartSize r.1
    = Z.of_nat (length (filter (λ x, MinParts bc ≤ Len x ≤ MaxParts bc
                                     ∧ ¬ within_bounds bc x) msgs)).
Proof.
  intros Hnew. simpl in Hnew. injection Hnew as <-. cbv zeta.
  destruct (BoundsCheck_run_counters_from (MkBoundsCheck cf 0 0 0 0 0 0 0) msgs)
    as (H1 & H2 & H3 & H4 & H5 & H6 & H7 & H8).
  cbn [conf b_mCount b_mDropped b_mDroppedEmpty b_mDroppedNumParts
       b_mDroppedPartSize b_mSent b_mSentParts] in *.
  rewrite H5, H6, H7. repeat split; lia.
Qed.

Lemma BoundsCheck_drop_reasons_witness :
  let cf := {| Type_ := "bounds_check"; Combine_ := NewCombineConfig;
               BoundsCheck_ := {| MaxParts := 2; MinParts := 1;
                                  MaxPartSize := 10; MinPartSize := 1 |} |} in
  let bc := BoundsCheck_ cf in
  let m := MkBoundsCheck cf 0 0 0 0 0 0 0 in
  let msgs := [New [B "a"]; New []; New [B "a"; B "b"; B "c"]; New [B ""]] in
  let r := BoundsCheck_run m msgs in
  b_mDroppedEmpty r.1
  = Z.of_nat (length (filter (λ x, Len x < MinParts bc) msgs))
  ∧ b_mDroppedNumParts r.1
    = Z.of_nat (length (filter (λ x, MinParts bc ≤ Len x ∧ MaxParts bc < Len x)
                          msgs))
  ∧ b_mDroppedPartSize r.1
    = Z.of_nat (length (filter (λ x, MinParts bc ≤ Len x ≤ MaxParts bc
                                     ∧ ¬ within_bounds bc x) msgs)).
Proof.
  intros cf bc m msgs. apply (BoundsCheck_drop_reasons cf m msgs). reflexivity.
Defined.

(** X10: bounds that contradict each other are accepted by the
    constructor and drop silently.  With [max_parts < min_parts] no
    message is ever emitted; with [max_part_size < min_part_size] only
    messages without any part can be emitted. *)
Theorem BoundsCheck_contradictory_bounds (m : BoundsCheck) (msgs : list Message) :
  let bc := BoundsCheck_ (conf m) in
  (MaxParts bc < MinParts bc → (BoundsCheck_run m msgs).2 = [])
  ∧ (MaxPartSize bc < MinPartSize bc →
     Forall (λ out, parts out = []) (BoundsCheck_run m msgs).2).
Proof.
  cbv zeta. destruct (BoundsCheck_run_spec m msgs) as [-> _]. split.
  - intros Hbad. induction msgs as [|msg rest IH]; [done|].
    rewrite filter_cons_False; [done|]. intros [? _]. lia.
  - intros Hbad. apply Forall_forall. intros out Hout.
    apply list_elem_of_filter in Hout as [[_ Hsizes] _].
    unfold GetAll in Hsizes. destruct (parts out) as [|part ps]; [done|].
    apply Forall_cons in Hsizes as [? _]. lia.
Qed.

Lemma BoundsCheck_contradictory_bounds_witness :
  let cf := {| Type_ := "bounds_check"; Combine_ := NewCombineConfig;
               BoundsCheck_ := {| MaxParts := 1; MinParts := 2;
                                  MaxPartSize := 10; MinPartSize := 1 |} |} in
  (BoundsCheck_run (MkBoundsCheck cf 0 0 0 0 0 0 0)
     [New [B "a"]; New [B "a"; B "b"]]).2 = [].
Proof.
  intros cf.
  destruct (BoundsCheck_contradictory_bounds (MkBoundsCheck cf 0 0 0 0 0 0 0)
              [New [B "a"]; New [B "a"; B "b"]]) as [Hparts _].
  apply Hparts. vm_compute. reflexivity.
Defined.

Lemma BoundsCheck_ProcessMessage_conf_only (m1 m2 : BoundsCheck) (msg : Message) :
  conf m1 = conf m2 →
  (BoundsCheck_ProcessMessage m1 msg).2 = (BoundsCheck_ProcessMessage m2 msg).2.
Proof.
  intros Hconf.
  destruct (decide (within_bounds (BoundsCheck_ (conf m1)) msg)) as [Hin|Hout].
  - rewrite (proj2 (BoundsCheck_emits_iff m1 msg)) by done.
    rewrite Hconf in Hin. by rewrite (proj2 (BoundsCheck_emits_iff m2 msg)).
  - destruct (BoundsCheck_outcomes m1 msg) as [H|H].
    { by apply BoundsCheck_emits_iff in H. }
    rewrite H. rewrite Hconf in Hout.
    destruct (BoundsCheck_outcomes m2 msg) as [H'|H']; [|done].
    by apply BoundsCheck_emits_iff in H'.
Qed.

(** X11: what BoundsCheck answers for a message does not depend on the
    messages it has seen before: after any run, the messages and the
    response returned for a message are those the processor returned at
    the start. *)
Theorem BoundsCheck_history_free (m : BoundsCheck) (msgs : list Message)
    (msg : Message) :
  (BoundsCheck_ProcessMessage (BoundsCheck_run m msgs).1 msg).2
  = (BoundsCheck_ProcessMessage m msg).2.
Proof.
  apply BoundsCheck_ProcessMessage_conf_only. apply BoundsCheck_run_spec.
Qed.

(** X12: two BoundsCheck processors in a chain, the second given what the
    first emits, let through exactly the messages within the bounds of
    both; in particular, giving a BoundsCheck its own output changes
    nothing. *)
Theorem BoundsCheck_chain (m1 m2 : BoundsCheck) (msgs : list Message) :
  (BoundsCheck_run m2 (BoundsCheck_run m1 msgs).2).2
  = filter (λ x, within_bounds (BoundsCheck_ (conf m2)) x
                 ∧ within_bounds (BoundsCheck_ (conf m1)) x) msgs
  ∧ (BoundsCheck_run m1 (BoundsCheck_run m1 msgs).2).2 = (BoundsCheck_run m1 msgs).2.
Proof.
  destruct (BoundsCheck_run_spec m1 msgs) as [-> _]. split.
  - destruct (BoundsCheck_run_spec m2
                (filter (within_bounds (BoundsCheck_ (conf m1))) msgs)) as [-> _].
    apply list_filter_filter.
  - destruct (BoundsCheck_run_spec m1
                (filter (within_bounds (BoundsCheck_ (conf m1))) msgs)) as [-> _].
    rewrite list_filter_filter. apply list_filter_iff. intros x. tauto.
Qed.

(** ** The nanomsg output: construction *)

Lemma first_error_None (f : string → option error) (addrs : list string) :
  output.first_error f addrs = None ↔ Forall (λ a, f a = None) addrs.
Proof.
  induction addrs as [|a addrs IH]; simpl.
  - split; [constructor | done].
  - rewrite Forall_cons, <- IH.
    destruct (f a); (split; [try done | try (by intros [? ?])]).
Qed.

Lemma first_error_first (f : string → option error) (before after : list string)
    (a : string) (e : error) :
  Forall (λ a, f a = None) before → f a = Some e →
  output.first_error f (before ++ a :: after) = Some e.
Proof.
  intros Hok Ha. induction Hok as [|x before Hx Hok IH]; simpl.
  - by rewrite Ha.
  - by rewrite Hx.
Qed.

(** The address-by-address connection of the constructor. *)
Lemma NewNanomsg_connect (lib : output.Mangos) (cf : output.Config)
    (sock : output.Socket) :
  output.getSocketFromType lib (output.SocketType (output.Nanomsg_ cf))
  = (Some sock, None) →
  output.SetOption lib sock (output.PollTimeoutMS (output.Nanomsg_ cf)) = None →
  output.NewNanomsg lib cf
  = match output.first_error
            (λ a, if output.Bind (output.Nanomsg_ cf)
                  then output.Listen lib sock a else output.Dial lib sock a)
            (output.collect_urls (output.URLs (output.Nanomsg_ cf))) with
    | Some e => (None, Some e)
    | None =>
        (Some {| output.running := 1;
                 output.urls := output.collect_urls (output.URLs (output.Nanomsg_ cf));
                 output.conf := cf;
                 output.socket := sock;
                 output.transactions := None;
                 output.closeChan_closed := false;
                 output.loops := 0 |},
         None)
    end.
Proof.
  intros Hsock Hopt. unfold output.NewNanomsg. rewrite Hsock, Hopt.
  by destruct (output.Bind (output.Nanomsg_ cf)).
Qed.

Lemma getSocketFromType_shape (lib : output.Mangos) (t : string) :
  (∃ sock, output.getSocketFromType lib t = (Some sock, None))
  ∨ (∃ e, output.getSocketFromType lib t = (None, Some e)).
Proof.
  unfold output.getSocketFromType.
  destruct (String.eqb t "PUSH").
  { destruct (output.push_NewSocket lib); [right | left]; by eexists. }
  destruct (String.eqb t "PUB").
  { destruct (output.pub_NewSocket lib); [right | left]; by eexists. }
  right. by eexists.
Qed.

(** X13: a socket type other than PUSH and PUB is refused: the
    constructor returns the invalid-protocol error and no output, whatever
    the library would answer and whatever the rest of the configuration. *)
Theorem NewNanomsg_invalid_socket_type (lib : output.Mangos) (cf : output.Config) :
  output.SocketType (output.Nanomsg_ cf) ≠ "PUSH"%string →
  output.SocketType (output.Nanomsg_ cf) ≠ "PUB"%string →
  output.NewNanomsg lib cf = (None, Some ErrInvalidScaleProtoType).
Proof.
  intros H1 H2. unfold output.NewNanomsg, output.getSocketFromType.
  apply String.eqb_neq in H1, H2. by rewrite H1, H2.
Qed.

Lemma NewNanomsg_invalid_socket_type_witness :
  output.NewNanomsg
    {| output.push_NewSocket := None; output.pub_NewSocket := None;
       output.SetOption := λ _ _, None; output.Listen := λ _ _, None;
       output.Dial := λ _ _, None |}
    {| output.Type_ := "nanomsg";
       output.Nanomsg_ := {| output.URLs := ["tcp://localhost:5556"%string];
                             output.Bind := false;
                             output.SocketType := "PULL";
                             output.PollTimeoutMS := 5000 |} |}
  = (None, Some ErrInvalidScaleProtoType).
Proof.
  apply NewNanomsg_invalid_socket_type; discriminate.
Defined.

(** X14: the constructor gives an output exactly when the socket is
    made, the receive deadline is set, and every address is connected
    without error, by Listen when [bind] is set and by Dial otherwise;
    in every other case it gives an error and no output, never both and
    never neither. *)
Theorem NewNanomsg_succeeds_iff (lib : output.Mangos) (cf : output.Config) :
  let nc := output.Nanomsg_ cf in
  ((∃ s, output.NewNanomsg lib cf = (Some s, None))
   ↔ ∃ sock,
       output.getSocketFromType lib (output.SocketType nc) = (Some sock, None)
       ∧ output.SetOption lib sock (output.PollTimeoutMS nc) = None
       ∧ Forall (λ a, (if output.Bind nc then output.Listen lib sock a
                       else output.Dial lib sock a) = None)
                (output.collect_urls (output.URLs nc)))
  ∧ ((∃ s, output.NewNanomsg lib cf = (Some s, None))
     ∨ (∃ e, output.NewNanomsg lib cf = (None, Some e))).
Proof.
  cbv zeta.
  destruct (getSocketFromType_shape lib (output.SocketType (output.Nanomsg_ cf)))
    as [[sock Hsock]|[e Hsock]].
  - destruct (output.SetOption lib sock
                (output.PollTimeoutMS (output.Nanomsg_ cf))) as [e|] eqn:Hopt.
    + assert (Hnew : output.NewNanomsg lib cf = (None, Some e)).
      { unfold output.NewNanomsg. by rewrite Hsock, Hopt. }
      rewrite Hnew. split; [|right; by eexists].
      split; [by intros [s ?]|]. intros (sock' & Hsock' & Hopt' & _).
      rewrite Hsock in Hsock'. injection Hsock' as <-. congruence.
    + rewrite (NewNanomsg_connect lib cf sock Hsock Hopt).
      destruct (output.first_error _ _) as [e|] eqn:Hconn.
      * split; [|right; by eexists].
        split; [by intros [s ?]|]. intros (sock' & Hsock' & _ & Hall).
        rewrite Hsock in Hsock'. injection Hsock' as <-.
        apply first_error_None in Hall. congruence.
      * split; [|left; by eexists].
        split; [|intros _; by eexists].
        intros _. exists sock. split; [done|]. split; [done|].
        by apply first_error_None.
  - assert (Hnew : output.NewNanomsg lib cf = (None, Some e)).
    { unfold output.NewNanomsg. by rewrite Hsock. }
    rewrite Hnew. split; [|right; by eexists].
    split; [by intros [s ?]|]. intros (sock' & Hsock' & _). congruence.
Qed.

(** X15: the addresses are connected in order and the first failure
    ends the construction: when the socket is made and its deadline set,
    the addresses before [a] connect, and [a] fails with [e], the
    constructor returns [e] and no output, whatever the addresses after
    [a] would answer. *)
Theorem NewNanomsg_first_failure (lib : output.Mangos) (cf : output.Config)
    (sock : output.Socket) (before after : list string) (a : string) (e : error) :
  let nc := output.Nanomsg_ cf in
  let connect a := if output.Bind nc then output.Listen lib sock a
                   else output.Dial lib sock a in
  output.getSocketFromType lib (output.SocketType nc) = (Some sock, None) →
  output.SetOption lib sock (output.PollTimeoutMS nc) = None →
  output.collect_urls (output.URLs nc) = before ++ a :: after →
  Forall (λ a, connect a = None) before →
  connect a = Some e →
  output.NewNanomsg lib cf = (None, Some e).
Proof.
  cbv zeta. intros Hsock Hopt Hurls Hbefore Ha.
  rewrite (NewNanomsg_connect lib cf sock Hsock Hopt), Hurls.
  by rewrite (first_error_first _ before after a e).
Qed.

Lemma NewNanomsg_first_failure_witness :
  output.NewNanomsg
    {| output.push_NewSocket := None; output.pub_NewSocket := None;
       output.SetOption := λ _ _, None;
       output.Listen := λ _ a, if String.eqb a "tcp://b:2" then Some ErrTimeout
                               else None;
       output.Dial := λ _ _, None |}
    {| output.Type_ := "nanomsg";
       output.Nanomsg_ := {| output.URLs := ["tcp://a:1,tcp://b:2"; "tcp://c:3"]%string;
                             output.Bind := true;
                             output.SocketType := "PUB";
                             output.PollTimeoutMS := 5000 |} |}
  = (None, Some ErrTimeout).
Proof.
  apply (NewNanomsg_first_failure _ _ output.PubSocket
           ["tcp://a:1"%string] ["tcp://c:3"%string] "tcp://b:2"%string ErrTimeout).
  - reflexivity.
  - reflexivity.
  - reflexivity.
  - repeat constructor.
  - reflexivity.
Defined.

(** *** The addresses of the output *)

Lemma Split_comma_not_nil (u : string) : output.Split_comma u ≠ [].
Proof.
  destruct u as [|ch rest]; simpl; [done|].
  destruct (Ascii.eqb ch ","); [done|]. by destruct (output.Split_comma rest).
Qed.

(** Joining the fields with commas gives back the string. *)
Lemma Split_comma_join (u : string) :
  String.concat "," (output.Split_comma u) = u.
Proof.
  induction u as [|ch rest IH]; [done|]. simpl.
  destruct (Ascii.eqb_spec ch ","%char) as [->|Hch].
  - pose proof (Split_comma_not_nil rest) as Hne.
    destruct (output.Split_comma rest) as [|hd tl]; [done|].
    simpl in *. by rewrite IH.
  - pose proof (Split_comma_not_nil rest) as Hne.
    destruct (output.Split_comma rest) as [|hd tl]; [done|].
    simpl in *. destruct tl; simpl in *; by rewrite <- IH.
Qed.

Lemma Split_comma_comma_free (u : string) :
  Forall comma_free (output.Split_comma u).
Proof.
  unfold comma_free. induction u as [|ch rest IH]; simpl.
  - repeat constructor. simpl. apply not_elem_of_nil.
  - destruct (Ascii.eqb_spec ch ","%char) as [->|Hch].
    + constructor; [|done]. simpl. apply not_elem_of_nil.
    + pose proof (Split_comma_not_nil rest) as Hne.
      destruct (output.Split_comma rest) as [|hd tl]; [done|].
      apply Forall_cons in IH as [Hhd Htl]. constructor; [|done].
      simpl. rewrite not_elem_of_cons. split; [congruence | done].
Qed.

Lemma Split_comma_whole (u : string) :
  comma_free u → output.Split_comma u = [u].
Proof.
  unfold comma_free. induction u as [|ch rest IH]; simpl; [done|].
  rewrite not_elem_of_cons. intros [Hch Hrest].
  destruct (Ascii.eqb_spec ch ","%char) as [->|_]; [done|].
  by rewrite IH.
Qed.

Lemma collect_urls_spec (us : list string) :
  output.collect_urls us
  = filter (λ u, u ≠ ""%string) (us ≫= output.Split_comma).
Proof.
  unfold output.collect_urls.
  assert (Hinner : ∀ (l acc : list string),
            fold_left (λ acc splitU,
                         if 0 <? Z.of_nat (String.length splitU)
                         then acc ++ [splitU] else acc) l acc
            = acc ++ filter (λ u, u ≠ ""%string) l).
  { induction l as [|x l IH]; intros acc.
    - simpl. by rewrite app_nil_r.
    - cbn [fold_left]. rewrite IH, filter_cons.
      destruct (decide (x ≠ ""%string)) as [Hx|Hx].
      + destruct x as [|ch x]; [done|]. cbn [String.length].
        destruct (Z.ltb_spec 0 (Z.of_nat (S (String.length x)))); [|lia].
        by rewrite <- app_assoc.
      + destruct x as [|ch x]; [done|]. exfalso. by apply Hx. }
  assert (Houter : ∀ (l acc : list string),
            fold_left (λ acc u,
                         fold_left (λ acc splitU,
                                      if 0 <? Z.of_nat (String.length splitU)
                                      then acc ++ [splitU] else acc)
                                   (output.Split_comma u) acc) l acc
            = acc ++ filter (λ u, u ≠ ""%string) (l ≫= output.Split_comma)).
  { induction l as [|u l IH]; intros acc.
    - simpl. by rewrite app_nil_r.
    - cbn [fold_left]. rewrite IH, Hinner, bind_cons, filter_app.
      by rewrite <- app_assoc. }
  apply (Houter us []).
Qed.

Lemma NewNanomsg_fields (lib : output.Mangos) (cf : output.Config)
    (s : output.Nanomsg) :
  output.NewNanomsg lib cf = (Some s, None) →
  output.urls s = output.collect_urls (output.URLs (output.Nanomsg_ cf))
  ∧ output.conf s = cf
  ∧ output.closeChan_closed s = false
  ∧ output.loops s = 0%nat.
Proof.
  unfold output.NewNanomsg.
  destruct (output.getSocketFromType lib _) as [[sock|] [e|]]; try discriminate.
  destruct (output.SetOption lib sock _); try discriminate.
  destruct (if output.Bind _ then _ else _); try discriminate.
  intros H. injection H as <-. done.
Qed.

(** X16: the addresses of a constructed output are the comma-separated
    fields of the configured URLs, in order, without the empty ones: none
    of them is empty or contains a comma; configured URLs that are
    non-empty and without comma are kept as they are. *)
Theorem NewNanomsg_urls (lib : output.Mangos) (cf : output.Config)
    (s : output.Nanomsg) :
  output.NewNanomsg lib cf = (Some s, None) →
  let configured := output.URLs (output.Nanomsg_ cf) in
  output.urls s
  = filter (λ u, u ≠ ""%string) (configured ≫= output.Split_comma)
  ∧ Forall (λ u, u ≠ ""%string ∧ comma_free u) (output.urls s)
  ∧ (Forall (λ u, u ≠ ""%string ∧ comma_free u) configured →
     output.urls s = configured).
Proof.
  intros Hnew. cbv zeta.
  destruct (NewNanomsg_fields lib cf s Hnew) as (-> & _).
  rewrite collect_urls_spec. split; [done|]. split.
  - apply Forall_forall. intros u Hu.
    apply list_elem_of_filter in Hu as [Hne Hu]. split; [done|].
    apply list_elem_of_bind in Hu as (u0 & Hu & _).
    by apply (proj1 (Forall_forall _ _) (Split_comma_comma_free u0)).
  - intros Hall. induction Hall as [|u us [Hne Hfree] Hall IH]; [done|].
    rewrite bind_cons, filter_app, IH, Split_comma_whole by done.
    by rewrite filter_cons_True.
Qed.

Lemma NewNanomsg_urls_witness :
  let lib := {| output.push_NewSocket := None; output.pub_NewSocket := None;
                output.SetOption := λ _ _, None; output.Listen := λ _ _, None;
                output.Dial := λ _ _, None |} in
  let cf := {| output.Type_ := "nanomsg";
               output.Nanomsg_ :=
                 {| output.URLs := ["tcp://a:1,,tcp://b:2"; ""; "tcp://c:3,"]%string;
                    output.Bind := false;
                    output.SocketType := "PUSH";
                    output.PollTimeoutMS := 5000 |} |} in
  let s := {| output.running := 1;
              output.urls := ["tcp://a:1"; "tcp://b:2"; "tcp://c:3"]%string;
              output.conf := cf;
              output.socket := output.PushSocket;
              output.transactions := None;
              output.closeChan_closed := false;
              output.loops := 0 |} in
  output.urls s
  = filter (λ u, u ≠ ""%string)
      (output.URLs (output.Nanomsg_ cf) ≫= output.Split_comma)
  ∧ Forall (λ u, u ≠ ""%string ∧ comma_free u) (output.urls s)
  ∧ (Forall (λ u, u ≠ ""%string ∧ comma_free u) (output.URLs (output.Nanomsg_ cf)) →
     output.urls s = output.URLs (output.Nanomsg_ cf)).
Proof.
  intros lib cf s. apply (NewNanomsg_urls lib cf s). reflexivity.
Defined.

(** ** The nanomsg output: Consume, CloseAsync and the loop *)

Lemma CloseAsync_not_running (s : output.Nanomsg) :
  output.running (output.CloseAsync s) ≠ 1.
Proof.
  unfold output.CloseAsync.
  destruct (Z.eqb_spec (output.running s) 1); simpl; [done | done].
Qed.

Lemma CloseAsync_stopped (s : output.Nanomsg) :
  output.running s ≠ 1 → output.CloseAsync s = s.
Proof.
  intros H. unfold output.CloseAsync.
  by destruct (Z.eqb_spec (output.running s) 1).
Qed.

(** X17: closing is final and is done once.  After CloseAsync the output
    is not running, and it is not running after any further calls; a
    second CloseAsync changes nothing, so the close channel is closed at
    most once; Consume never changes whether the output is running. *)
Theorem CloseAsync_final (s : output.Nanomsg) (cs : list output.Call) :
  output.CloseAsync (output.CloseAsync s) = output.CloseAsync s
  ∧ output.running (output.calls (output.CloseAsync s) cs).1 ≠ 1
  ∧ output.closeChan_closed (output.calls (output.CloseAsync s) cs).1
    = output.closeChan_closed (output.CloseAsync s).
Proof.
  split; [apply CloseAsync_stopped, CloseAsync_not_running|].
  pose proof (CloseAsync_not_running s) as Hstop.
  generalize dependent (output.CloseAsync s). clear s.
  induction cs as [|c cs IH]; intros s Hstop; [done|].
  rewrite calls_cons. cbn [fst snd].
  destruct c as [ts|]; simpl.
  - unfold output.Consume. destruct (output.transactions s); simpl.
    + by apply IH.
    + destruct (IH (output.MkNanomsg (output.running s) (output.urls s)
                      (output.conf s) (output.socket s) ts
                      (output.closeChan_closed s) (S (output.loops s))) Hstop)
        as [H1 H2]. done.
  - rewrite CloseAsync_stopped by done. by apply IH.
Qed.

(** X18: Consume does not look at whether the output is running or
    closed: Consume and CloseAsync commute.  An output that was closed
    before it was started still accepts its first Consume and starts its
    loop. *)
Theorem Consume_CloseAsync_commute (s : output.Nanomsg) (ts : TransactionChan) :
  output.Consume (output.CloseAsync s) ts
  = (output.CloseAsync (output.Consume s ts).1, (output.Consume s ts).2)
  ∧ (output.transactions s = None →
     (output.Consume (output.CloseAsync s) ts).2 = None
     ∧ output.loops (output.Consume (output.CloseAsync s) ts).1
       = S (output.loops s)).
Proof.
  assert (Hcomm : output.Consume (output.CloseAsync s) ts
                  = (output.CloseAsync (output.Consume s ts).1,
                     (output.Consume s ts).2)).
  { unfold output.Consume, output.CloseAsync.
    destruct (output.running s =? 1) eqn:Hrun;
      destruct (output.transactions s) eqn:Hts; simpl; by rewrite ?Hrun, ?Hts. }
  split; [done|]. intros Hts. rewrite Hcomm. cbn [fst snd].
  destruct (Consume_first s ts Hts) as (-> & _ & Hloops). split; [done|].
  rewrite <- Hloops. unfold output.CloseAsync.
  by destruct (output.running _ =? 1).
Qed.

Lemma Consume_CloseAsync_commute_witness :
  let s := {| output.running := 1;
              output.urls := ["tcp://localhost:5556"%string];
              output.conf := {| output.Type_ := "nanomsg";
                                output.Nanomsg_ := output.NewNanomsgConfig |};
              output.socket := output.PushSocket;
              output.transactions := None;
              output.closeChan_closed := false;
              output.loops := 0 |} in
  (output.Consume (output.CloseAsync s) (Some 3%nat)).2 = None
  ∧ output.loops (output.Consume (output.CloseAsync s) (Some 3%nat)).1 = 1%nat.
Proof.
  intros s.
  destruct (Consume_CloseAsync_commute s (Some 3%nat)) as [_ H].
  apply H. reflexivity.
Defined.

(** X19: a Consume with the nil channel is accepted but does not mark
    the output as started: it returns no error, starts a loop, and leaves
    the output without upstream, so that the next Consume is accepted as
    well and starts a second loop. *)
Theorem Consume_nil_channel (s : output.Nanomsg) (ts : TransactionChan) :
  output.transactions s = None →
  let s1 := (output.Consume s None).1 in
  (output.Consume s None).2 = None
  ∧ output.transactions s1 = None
  ∧ output.loops s1 = S (output.loops s)
  ∧ (output.Consume s1 ts).2 = None
  ∧ output.transactions (output.Consume s1 ts).1 = ts
  ∧ output.loops (output.Consume s1 ts).1 = S (S (output.loops s)).
Proof.
  intros Hts. cbv zeta.
  destruct (Consume_first s None Hts) as (H1 & H2 & H3).
  destruct (Consume_first _ ts H2) as (H4 & H5 & H6).
  rewrite H6, H3. done.
Qed.

Lemma Consume_nil_channel_witness :
  let s := {| output.running := 1;
              output.urls := ["tcp://localhost:5556"%string];
              output.conf := {| output.Type_ := "nanomsg";
                                output.Nanomsg_ := output.NewNanomsgConfig |};
              output.socket := output.PushSocket;
              output.transactions := None;
              output.closeChan_closed := false;
              output.loops := 0 |} in
  let s1 := (output.Consume s None).1 in
  (output.Consume s None).2 = None
  ∧ output.transactions s1 = None
  ∧ output.loops s1 = 1%nat
  ∧ (output.Consume s1 (Some 4%nat)).2 = None
  ∧ output.transactions (output.Consume s1 (Some 4%nat)).1 = Some 4%nat
  ∧ output.loops (output.Consume s1 (Some 4%nat)).1 = 2%nat.
Proof.
  intros s. apply (Consume_nil_channel s (Some 4%nat)). reflexivity.
Defined.

Lemma send_parts_spec (Send : nat → bytes → option error) (i : nat)
    (ps : list bytes) :
  match send_parts Send i ps with
  | (sends, None) =>
      sends = (i + length ps)%nat
      ∧ ∀ j p, ps !! j = Some p → Send (i + j)%nat p = None
  | (sends, Some e) =>
      ∃ j p, ps !! j = Some p ∧ Send (i + j)%nat p = Some e
             ∧ sends = S (i + j)
             ∧ ∀ j' p', (j' < j)%nat → ps !! j' = Some p' →
                        Send (i + j')%nat p' = None
  end.
Proof.
  revert i. induction ps as [|part rest IH]; intros i; simpl.
  { split; [lia|]. intros j p Hj. by destruct j. }
  destruct (Send i part) as [e|] eqn:Hsend.
  - exists 0%nat, part. rewrite Nat.add_0_r. repeat split; [done|]. intros; lia.
  - specialize (IH (S i)). destruct (send_parts Send (S i) rest) as [sends [e|]].
    + destruct IH as (j & p & Hj & Hfail & -> & Hbefore).
      exists (S j), p. simpl. rewrite Nat.add_succ_r. repeat split; try done.
      intros [|j'] p' Hlt Hp'; simpl in Hp'.
      * injection Hp' as <-. by rewrite Nat.add_0_r.
      * rewrite Nat.add_succ_r. apply Hbefore; [lia | done].
    + destruct IH as [-> Hall]. split; [lia|].
      intros [|j] p Hp; simpl in Hp.
      * injection Hp as <-. by rewrite Nat.add_0_r.
      * rewrite Nat.add_succ_r. by apply Hall.
Qed.

(** X20: one turn of the output loop.  The response to a transaction is
    Ack exactly when the Send of every part succeeds, and then every part
    was sent; when a Send fails, the response is the error of the first
    failure and no later part is sent; the response is never SkipAck.
    Each turn adds one to [count] and one to exactly one of
    [send.success] and [send.error]. *)
Theorem loop_turn_response (Send : nat → bytes → option error)
    (k : LoopCounters) (payload : Message) :
  let r := loop_turn Send k payload in
  let ps := GetAll payload in
  (r.2 = Ack ↔ ∀ j p, ps !! j = Some p → Send j p = None)
  ∧ (r.2 = Ack → r.1.2 = length ps
                 ∧ mSendSucc r.1.1 = mSendSucc k + 1
                 ∧ mSendErr r.1.1 = mSendErr k)
  ∧ (∀ j p e,
       ps !! j = Some p → Send j p = Some e →
       (∀ j' p', (j' < j)%nat → ps !! j' = Some p' → Send j' p' = None) →
       r.2 = Error e ∧ r.1.2 = S j
       ∧ mSendErr r.1.1 = mSendErr k + 1
       ∧ mSendSucc r.1.1 = mSendSucc k)
  ∧ r.2 ≠ SkipAck
  ∧ mCount r.1.1 = mCount k + 1.
Proof.
  cbv zeta. unfold loop_turn.
  pose proof (send_parts_spec Send 0 (GetAll payload)) as Hspec.
  destruct (send_parts Send 0 (GetAll payload)) as [sends [e|]]; simpl in *.
  - destruct Hspec as (j & p & Hj & Hfail & -> & Hbefore).
    split; [|split; [done|split; [|done]]].
    + split; [done|]. intros Hall. rewrite (Hall j p Hj) in Hfail. done.
    + intros j2 p2 e2 Hj2 Hfail2 Hbefore2.
      destruct (Nat.lt_trichotomy j j2) as [Hlt|[<-|Hgt]].
      * rewrite (Hbefore2 j p Hlt Hj) in Hfail. done.
      * rewrite Hj in Hj2. injection Hj2 as <-. rewrite Hfail in Hfail2.
        injection Hfail2 as <-. done.
      * rewrite (Hbefore j2 p2 Hgt Hj2) in Hfail2. done.
  - destruct Hspec as [-> Hall].
    split; [by split|]. split; [done|]. split; [|done].
    intros j p e Hj Hfail _. rewrite (Hall j p Hj) in Hfail. done.
Qed.

Lemma loop_turn_response_witness :
  let Send := λ (i : nat) (part : bytes),
                if decide (i = 1%nat) then Some ErrTimeout else None in
  let k := {| mCount := 0; mSendErr := 0; mSendSucc := 0 |} in
  let r := loop_turn Send k (New [B "a"; B "b"; B "c"]) in
  r.2 = Error ErrTimeout ∧ r.1.2 = 2%nat
  ∧ mSendErr r.1.1 = 0 + 1
  ∧ mSendSucc r.1.1 = 0.
Proof.
  intros Send k r.
  destruct (loop_turn_response Send k (New [B "a"; B "b"; B "c"]))
    as (_ & _ & Hfail & _).
  apply (Hfail 1%nat (B "b") ErrTimeout).
  - reflexivity.
  - reflexivity.
  - intros [|j'] p' Hlt Hp'; [reflexivity | lia].
Defined.

(** ** Combine: order *)

Lemma Combine_run_app (c : Combine) (msgs1 msgs2 : list Message) :
  Combine_run c (msgs1 ++ msgs2)
  = ((Combine_run (Combine_run c msgs1).1 msgs2).1,
     (Combine_run c msgs1).2 ++ (Combine_run (Combine_run c msgs1).1 msgs2).2).
Proof.
  revert c. induction msgs1 as [|msg rest IH]; intros c.
  { simpl. by destruct (Combine_run c msgs2). }
  rewrite <- app_comm_cons, !Combine_run_cons, IH. cbn [fst snd].
  by rewrite app_assoc.
Qed.

(** What a run emits and leaves pending depends on the threshold and on
    the buffer only, not on the counters. *)
Lemma Combine_run_counters_irrelevant (c1 c2 : Combine) (msgs : list Message) :
  n c1 = n c2 → c_parts c1 = c_parts c2 →
  (Combine_run c1 msgs).2 = (Combine_run c2 msgs).2
  ∧ c_parts (Combine_run c1 msgs).1 = c_parts (Combine_run c2 msgs).1
  ∧ n (Combine_run c1 msgs).1 = n (Combine_run c2 msgs).1.
Proof.
  revert c1 c2. induction msgs as [|msg rest IH]; intros c1 c2 Hn Hbuf; [done|].
  rewrite !Combine_run_cons. cbn [fst snd].
  destruct (Z_lt_le_dec (n c1) (Len msg)) as [Hover|Hfit].
  { rewrite (Combine_ProcessMessage_oversize c1), (Combine_ProcessMessage_oversize c2)
      by lia. cbn [fst snd].
    destruct (IH (MkCombine (n c1) (c_parts c1) (c_mCount c1 + 1)
                    (c_mWarnParts c1 + 1) (c_mSent c1 + 1)
                    (c_mSentParts c1 + Len msg) (c_mDropped c1))
                 (MkCombine (n c2) (c_parts c2) (c_mCount c2 + 1)
                    (c_mWarnParts c2 + 1) (c_mSent c2 + 1)
                    (c_mSentParts c2 + Len msg) (c_mDropped c2)) Hn Hbuf)
      as (-> & -> & ->). done. }
  destruct (Z_lt_le_dec (Z.of_nat (length (c_parts c1 ++ GetAll msg))) (n c1))
    as [Hlt|Hge].
  - rewrite (Combine_ProcessMessage_pending c1), (Combine_ProcessMessage_pending c2)
      by (rewrite <- ?Hbuf; lia). cbn [fst snd].
    destruct (IH (MkCombine (n c1) (c_parts c1 ++ GetAll msg) (c_mCount c1 + 1)
                    (c_mWarnParts c1) (c_mSent c1) (c_mSentParts c1)
                    (c_mDropped c1 + 1))
                 (MkCombine (n c2) (c_parts c2 ++ GetAll msg) (c_mCount c2 + 1)
                    (c_mWarnParts c2) (c_mSent c2) (c_mSentParts c2)
                    (c_mDropped c2 + 1)) Hn ltac:(simpl; by rewrite Hbuf))
      as (-> & -> & ->). done.
  - rewrite (Combine_ProcessMessage_batch c1), (Combine_ProcessMessage_batch c2)
      by (rewrite <- ?Hbuf; lia). cbn [fst snd].
    destruct (IH (MkCombine (n c1) [] (c_mCount c1 + 1) (c_mWarnParts c1)
                    (c_mSent c1 + 1)
                    (c_mSentParts c1 + Z.of_nat (length (c_parts c1 ++ GetAll msg)))
                    (c_mDropped c1))
                 (MkCombine (n c2) [] (c_mCount c2 + 1) (c_mWarnParts c2)
                    (c_mSent c2 + 1)
                    (c_mSentParts c2 + Z.of_nat (length (c_parts c2 ++ GetAll msg)))
                    (c_mDropped c2)) Hn eq_refl)
      as (-> & -> & ->). by rewrite Hbuf.
Qed.

(** The threshold is never changed. *)
Lemma Combine_run_threshold (c : Combine) (msgs : list Message) :
  n (Combine_run c msgs).1 = n c.
Proof.
  revert c. induction msgs as [|msg rest IH]; intros c; [done|].
  rewrite Combine_run_cons. cbn [fst snd]. rewrite IH.
  destruct (Z_lt_le_dec (n c) (Len msg)) as [Hover|Hfit].
  { by rewrite Combine_ProcessMessage_oversize. }
  destruct (Z_lt_le_dec (Z.of_nat (length (c_parts c ++ GetAll msg))) (n c))
    as [Hlt|Hge].
  - by rewrite Combine_ProcessMessage_pending.
  - by rewrite Combine_ProcessMessage_batch.
Qed.

(** X21: an oversize message overtakes the parts that are pending and
    does not take part in the batching.  Placed anywhere in a run, it is
    emitted as it is, right after what the messages before it made the
    processor emit, and the other messages are batched exactly as they
    would be without it. *)
Theorem Combine_oversize_overtakes (c : Combine) (before after : list Message)
    (big : Message) :
  n c < Len big →
  let without := Combine_run c (before ++ after) in
  let emitted_before := (Combine_run c before).2 in
  (Combine_run c (before ++ big :: after)).2
  = emitted_before ++ big :: drop (length emitted_before) without.2
  ∧ take (length emitted_before) without.2 = emitted_before
  ∧ c_parts (Combine_run c (before ++ big :: after)).1 = c_parts without.1.
Proof.
  intros Hbig. cbv zeta. rewrite !Combine_run_app. cbn [fst snd].
  rewrite drop_app_length, take_app_length.
  rewrite Combine_run_cons. cbn [fst snd].
  rewrite Combine_ProcessMessage_oversize
    by (by rewrite Combine_run_threshold). cbn [fst snd].
  destruct (Combine_run_counters_irrelevant
              (MkCombine (n (Combine_run c before).1)
                 (c_parts (Combine_run c before).1)
                 (c_mCount (Combine_run c before).1 + 1)
                 (c_mWarnParts (Combine_run c before).1 + 1)
                 (c_mSent (Combine_run c before).1 + 1)
                 (c_mSentParts (Combine_run c before).1 + Len big)
                 (c_mDropped (Combine_run c before).1))
              (Combine_run c before).1 after eq_refl eq_refl) as (-> & -> & _).
  done.
Qed.

Lemma Combine_oversize_overtakes_witness :
  let c := {| n := 2; c_parts := []; c_mCount := 0; c_mWarnParts := 0;
              c_mSent := 0; c_mSentParts := 0; c_mDropped := 0 |} in
  let before := [New [B "a"]] in
  let after := [New [B "b"]] in
  let big := New [B "x"; B "y"; B "z"] in
  let without := Combine_run c (before ++ after) in
  let emitted_before := (Combine_run c before).2 in
  (Combine_run c (before ++ big :: after)).2
  = emitted_before ++ big :: drop (length emitted_before) without.2
  ∧ take (length emitted_before) without.2 = emitted_before
  ∧ c_parts (Combine_run c (before ++ big :: after)).1 = c_parts without.1.
Proof.
  intros c before after big.
  apply (Combine_oversize_overtakes c before after big).
  vm_compute. reflexivity.
Defined.

(** X22: without oversize messages, a new Combine cuts the sequence of
    messages it receives into consecutive, non-empty groups.  Each group
    comes out as one message, made of the parts of its messages in the
    order received and carrying the metadata of the last message of the
    group only; the parts of the messages after the last group are what
    is left pending. *)
Theorem Combine_batches_are_groups (cf : Config) (c : Combine)
    (msgs : list Message) :
  (NewCombine cf).1 = Some c →
  Forall (λ m, Len m ≤ Parts (Combine_ cf)) msgs →
  ∃ (groups : list (list Message)) (leftover : list Message),
    msgs = concat groups ++ leftover
    ∧ (Combine_run c msgs).2 = batch_of <$> groups
    ∧ Forall (λ g, g ≠ []) groups
    ∧ c_parts (Combine_run c msgs).1 = concat (GetAll <$> leftover).
Proof.
  intros Hnew Hall. simpl in Hnew. injection Hnew as <-.
  apply (Combine_run_groups
           (MkCombine (Parts (Combine_ cf)) [] 0 0 0 0 0) [] msgs); done.
Qed.

Lemma Combine_batches_are_groups_witness :
  let cf := {| Type_ := "combine"; Combine_ := {| Parts := 2 |};
               BoundsCheck_ := NewBoundsCheckConfig |} in
  let c := {| n := 2; c_parts := []; c_mCount := 0; c_mWarnParts := 0;
              c_mSent := 0; c_mSentParts := 0; c_mDropped := 0 |} in
  let msgs := [SetMetadata (New [B "a"]) "k" "1";
               SetMetadata (New [B "b"; B "c"]) "k" "2"; New [B "d"]] in
  ∃ (groups : list (list Message)) (leftover : list Message),
    msgs = concat groups ++ leftover
    ∧ (Combine_run c msgs).2 = batch_of <$> groups
    ∧ Forall (λ g, g ≠ []) groups
    ∧ c_parts (Combine_run c msgs).1 = concat (GetAll <$> leftover).
Proof.
  intros cf c msgs. apply (Combine_batches_are_groups cf c msgs).
  - reflexivity.
  - repeat constructor; vm_compute; discriminate.
Defined.
